(** * Dark-channel-prior dehazing: a shallow embedding of [src/dehaze.py]

    The numeric core of the repository ([get_dark_channel], [get_atmosphere],
    [get_transmission], [dehaze_raw], [get_radiance], [to_img], [dehaze])
    is translated function by function.

    Conventions of the embedding.
    - A numpy [float64] array is a list of rows; a scalar is an exact
      rational ([Q]).  The arithmetic on pixel values is the exact one: its
      rounding is not modelled.
    - The product [M * N * p] of [get_atmosphere] is the binary64 product
      ([float_mul]): [int] truncates it to the number of selected
      positions, and one rounding can move it across an integer.  [M * N]
      is taken as it is (an image of fewer than [2 ^ 53] pixels converts
      exactly), and the exponent range of binary64 is not modelled.
    - An [M * N * 3] array is a grid of pixels, a pixel being the triple of
      its R, G and B values.
    - numpy does not raise on a division by zero: it goes on with [inf] or
      [nan] and returns.  Such values are not rationals, so a run that
      divides by zero ends in the outcome [NonFinite], and [Ok] says that
      the run returned and divided by no zero.  Nothing is stated about the
      values of a [NonFinite] run; a theorem about the runs that return
      names the condition under which no zero is divided by.
    - An exception raised by numpy is the outcome [Raises].
    - The [print] statements of [dehaze_raw] have no effect on the values
      and are left out.
    - Arrays with a zero-sized axis are outside the embedding: the theorems
      assume [M >= 1] and [N >= 1]. *)

From Stdlib Require Import List ZArith QArith Qminmax Qround Lia Lqa Bool.
From Stdlib Require Import Field Qpower.
From Stdlib Require Import Permutation Sorted.
Import ListNotations.

Open Scope Q_scope.

(** ** Outcomes of a numpy computation *)

Inductive exn : Type :=
| ValueError     (* numpy: reduction of an empty array, negative pad width,
                    shapes that do not fit *)
| IndexError     (* numpy: [take] out of range *)
| NumericError.  (* what the guided filter may fail with *)

Inductive outcome (A : Type) : Type :=
| Ok (a : A)
| Raises (e : exn)
| NonFinite.

Arguments Ok {A} a.
Arguments Raises {A} e.
Arguments NonFinite {A}.

Definition bind {A B} (c : outcome A) (k : A -> outcome B) : outcome B :=
  match c with
  | Ok a => k a
  | Raises e => Raises e
  | NonFinite => NonFinite
  end.

Notation "x <- c ;; k" := (bind c (fun x => k))
  (at level 61, c at next level, right associativity).
Notation "' pat <- c ;; k" := (bind c (fun x => match x with pat => k end))
  (at level 61, pat pattern, c at next level, right associativity).

Fixpoint mapM {A B} (f : A -> outcome B) (l : list A) : outcome (list B) :=
  match l with
  | [] => Ok []
  | x :: t => y <- f x ;; ys <- mapM f t ;; Ok (y :: ys)
  end.

(** ** Arrays *)

Definition grid (A : Type) : Type := list (list A).
Definition pixel : Type := (Q * Q * Q)%type.
Definition image : Type := grid pixel.

Definition chR (x : pixel) : Q := fst (fst x).
Definition chG (x : pixel) : Q := snd (fst x).
Definition chB (x : pixel) : Q := snd x.
Definition channels (x : pixel) : list Q := [chR x; chG x; chB x].

Definition pixel_map (f : Q -> Q) (x : pixel) : pixel :=
  (f (chR x), f (chG x), f (chB x)).
Definition pixel_map2 (f : Q -> Q -> Q) (x y : pixel) : pixel :=
  (f (chR x) (chR y), f (chG x) (chG y), f (chB x) (chB y)).

(** [a.shape] of a two-dimensional array (the row length is read off the
    first row). *)
Definition shape {A} (g : grid A) : nat * nat :=
  (length g, length (hd [] g)).

(** A well-formed [M * N] array. *)
Definition rect {A} (M N : nat) (g : grid A) : Prop :=
  length g = M /\ Forall (fun row => length row = N) g.

Definition grid_map {A B} (f : A -> B) (g : grid A) : grid B :=
  map (map f) g.

(** [a.ravel()], [a.reshape(M * N, ...)]: row-major flattening. *)
Definition ravel {A} (g : grid A) : list A := concat g.

(** ** numpy primitives *)

Definition max_color_val : Z := 256.

(** [int(x)] of a float: truncation toward zero. *)
Definition py_int (x : Q) : Z := Z.quot (Qnum x) (Zpos (Qden x)).

(** *** binary64 multiplication *)

(** Rounding to the nearest integer, a tie going to the even one. *)
Definition rne (x : Q) : Z :=
  let f := Qfloor x in
  match (2 * (x - inject_Z f) ?= 1)%Q with
  | Lt => f
  | Gt => (f + 1)%Z
  | Eq => if Z.even f then f else (f + 1)%Z
  end.

(** The exponent [e] with [2 ^ e <= a < 2 ^ (e + 1)], for a positive [a]. *)
Definition binade (a : Q) : Z :=
  if Qle_bool 1 a then Z.log2 (Qfloor a)
  else (- Z.log2_up (Qceiling (/ a)))%Z.

(** The nearest number with a significand of 53 bits, for a positive [a]. *)
Definition round_pos (a : Q) : Q :=
  let s := 2 ^ (binade a - 52) in
  inject_Z (rne (a / s)) * s.

(** Round to nearest, ties to even: the rounding of every binary64
    operation. *)
Definition round64 (x : Q) : Q :=
  match (x ?= 0)%Q with
  | Eq => 0
  | Gt => round_pos x
  | Lt => - round_pos (- x)
  end.

(** [x * y] on two floats. *)
Definition float_mul (x y : Q) : Q := round64 (x * y).

(** [l[:k]]: a negative [k] counts from the end. *)
Definition slice_to {A} (k : Z) (l : list A) : list A :=
  if (k <? 0)%Z then firstn (Z.to_nat (Z.of_nat (length l) + k)) l
  else firstn (Z.to_nat k) l.

(** [np.min(a)] of a flattened array; numpy raises [ValueError] on an empty
    one. *)
Definition np_min (l : list Q) : outcome Q :=
  match l with
  | [] => Raises ValueError
  | x :: t => Ok (fold_left Qmin t x)
  end.

Definition np_max (l : list Q) : outcome Q :=
  match l with
  | [] => Raises ValueError
  | x :: t => Ok (fold_left Qmax t x)
  end.

(** [np.max(a, axis=0)] of a [k * 3] array: the maximum of each column. *)
Definition np_max_axis0 (l : list pixel) : outcome pixel :=
  match l with
  | [] => Raises ValueError
  | x :: t => Ok (fold_left (pixel_map2 Qmax) t x)
  end.

(** [np.minimum(A, m)] of a 3-vector and [np.maximum(t, m)] of a map, [m] a
    scalar. *)
Definition np_minimum (A : pixel) (m : Q) : pixel :=
  pixel_map (fun a => Qmin a m) A.

Definition np_maximum (t : grid Q) (m : Q) : grid Q :=
  grid_map (fun x => Qmax x m) t.

(** [a.take(idx, axis=0)]. *)
Definition take {A} (l : list A) (idx : list nat) : outcome (list A) :=
  mapM (fun i => match nth_error l i with
                 | Some x => Ok x
                 | None => Raises IndexError
                 end) idx.

(** One axis of [np.pad(..., 'edge')]: [n] copies of the first element in
    front and [n] copies of the last one behind. *)
Definition pad_edge {A} (n : nat) (l : list A) : list A :=
  match l with
  | [] => []
  | x :: _ => repeat x n ++ l ++ repeat (last l x) n
  end.

(** [np.pad(I, ((h, h), (h, h), (0, 0)), 'edge')]. *)
Definition np_pad_edge (I : image) (h : Z) : outcome image :=
  if (h <? 0)%Z then Raises ValueError
  else Ok (pad_edge (Z.to_nat h) (map (pad_edge (Z.to_nat h)) I)).

(** [a.argsort()]: the indices of [a] in ascending order of value.  Equal
    values are kept in ascending index order (numpy's default sort leaves
    their order open). *)
Fixpoint insert_key (x : Q * nat) (l : list (Q * nat)) : list (Q * nat) :=
  match l with
  | [] => [x]
  | y :: t => if Qle_bool (fst x) (fst y) then x :: l else y :: insert_key x t
  end.

Definition sort_keys (l : list (Q * nat)) : list (Q * nat) :=
  fold_right insert_key [] l.

Definition argsort (a : list Q) : list nat :=
  map snd (sort_keys (combine a (seq 0 (length a)))).

(** ** [get_dark_channel] *)

(** [padded[i:i + w, j:j + w, :]], flattened. *)
Definition window (padded : image) (w i j : nat) : list Q :=
  flat_map channels
    (concat (map (fun row => firstn w (skipn j row))
                 (firstn w (skipn i padded)))).

Definition get_dark_channel (I : image) (w : Z) : outcome (grid Q) :=
  let '(M, N) := shape I in
  padded <- np_pad_edge I (w / 2) ;;
  mapM (fun i =>
          mapM (fun j => np_min (window padded (Z.to_nat w) i j)) (seq 0 N))
       (seq 0 M).

(** ** [get_atmosphere] *)

(** [(-flat_dark).argsort()[:int(M * N * p)]] *)
Definition search_idx (dark_ch : grid Q) (p : Q) : list nat :=
  let '(M, N) := shape dark_ch in
  let flat_dark := ravel dark_ch in
  slice_to (py_int (float_mul (inject_Z (Z.of_nat (M * N))) p))
           (argsort (map Qopp flat_dark)).

(** [int(M * N * p)], the number of positions that the slice asks for. *)
Definition selection_count (M N : nat) (p : Q) : Z :=
  py_int (float_mul (inject_Z (Z.of_nat (M * N))) p).

Definition get_atmosphere (I : image) (dark_ch : grid Q) (p : Q)
  : outcome pixel :=
  let '(M, N) := shape dark_ch in
  flat_I <- (if Nat.eqb (length (ravel I)) (M * N) then Ok (ravel I)
             else Raises ValueError) ;;
  sel <- take flat_I (search_idx dark_ch p) ;;
  np_max_axis0 sel.

(** ** [get_transmission] *)

(** [I / A], [A] broadcast over the pixels. *)
Definition div_light (I : image) (A : pixel) : outcome image :=
  if existsb (fun a => Qeq_bool a 0) (channels A) then NonFinite
  else Ok (grid_map (fun x => pixel_map2 Qdiv x A) I).

Definition get_transmission (I : image) (A : pixel) (omega : Q) (w : Z)
  : outcome (grid Q) :=
  IA <- div_light I A ;;
  dark <- get_dark_channel IA w ;;
  Ok (grid_map (fun d => 1 - omega * d) dark).

(** ** [get_radiance] *)

(** Assignment of [a] to an axis of length [n]: numpy broadcasts an axis of
    length 1 and raises [ValueError] for any other length than [n]. *)
Definition broadcast_to {A} (n : nat) (l : list A) : outcome (list A) :=
  if Nat.eqb (length l) n then Ok l
  else match l with
       | [x] => Ok (repeat x n)
       | _ => Raises ValueError
       end.

(** [tiledt = np.zeros_like(I); tiledt[:, :, R] = tiledt[:, :, G] =
    tiledt[:, :, B] = trans]: the map [trans] in the [M * N] shape of [I],
    the same for the three channels. *)
Definition tile (I : image) (trans : grid Q) : outcome (grid Q) :=
  let '(M, N) := shape I in
  rows <- broadcast_to M trans ;;
  mapM (broadcast_to N) rows.

Definition recover (A : pixel) (x : pixel) (t : Q) : pixel :=
  pixel_map2 (fun i a => (i - a) / t + a) x A.

(** [(I - atm_light) / tiledt + atm_light], for a [float64] image [I] as
    [dehaze] builds it. *)
Definition get_radiance (I : image) (atm_light : pixel) (trans : grid Q)
  : outcome image :=
  tiledt <- tile I trans ;;
  if existsb (fun t => Qeq_bool t 0) (ravel tiledt) then NonFinite
  else Ok (map (fun rt => map (fun xt => recover atm_light (fst xt) (snd xt))
                              (combine (fst rt) (snd rt)))
               (combine I tiledt)).

(** ** [to_img] *)

(** [np.maximum(np.minimum(raw, max_color_val - 1), 0).astype(np.uint8)] *)
Definition cut (x : Q) : Z :=
  py_int (Qmax (Qmin x (inject_Z (max_color_val - 1))) 0).

Inductive picture : Type :=
| Gray (g : grid Z)
| Color (g : grid (Z * Z * Z)).

Definition to_img (raw : grid Q) : picture := Gray (grid_map cut raw).
Definition to_img_rgb (raw : image) : picture :=
  Color (grid_map (fun x => (cut (chR x), cut (chG x), cut (chB x))) raw).

(** ** The pipeline *)

Section Pipeline.

(** [guidedfilter.guided_filter(I, p, r, eps)]: the module is not part
    of the sources at hand; the pipeline is parametrised by it. *)
Variable guided_filter : image -> grid Q -> Z -> Q -> outcome (grid Q).

(** [(I - I.min()) / (I.max() - I.min())] *)
Definition normalize (I : image) : outcome image :=
  let flat := flat_map channels (ravel I) in
  lo <- np_min flat ;;
  hi <- np_max flat ;;
  if Qeq_bool (hi - lo) 0 then NonFinite
  else Ok (grid_map (pixel_map (fun x => (x - lo) / (hi - lo))) I).

Definition dehaze_raw (I : image) (t_min atm_max : Q) (w : Z) (p omega : Q)
           (guided : bool) (r : Z) (eps : Q)
  : outcome (grid Q * pixel * grid Q * grid Q) :=
  Idark <- get_dark_channel I w ;;
  atm0 <- get_atmosphere I Idark p ;;
  let atm_light := np_minimum atm0 atm_max in
  rawt0 <- get_transmission I atm_light omega w ;;
  let rawt := np_maximum rawt0 t_min in
  refinedt <- (if guided
               then normI <- normalize I ;; guided_filter normI rawt r eps
               else Ok rawt) ;;
  Ok (Idark, atm_light, rawt, refinedt).

(** [np.asarray(img, dtype=np.float64)] of an 8-bit RGB picture. *)
Definition asarray (img : grid (Z * Z * Z)) : image :=
  grid_map (fun x => (inject_Z (fst (fst x)), inject_Z (snd (fst x)),
                      inject_Z (snd x))) img.

Definition dehaze (img : grid (Z * Z * Z)) (t_min atm_max : Q) (w : Z)
           (p omega : Q) (guided : bool) (r : Z) (eps : Q)
  : outcome (list picture) :=
  let I := asarray img in
  '(Idark, atm_light, rawt, refinedt) <-
     dehaze_raw I t_min atm_max w p omega guided r eps ;;
  let white := inject_Z (max_color_val - 1) in
  rad_raw <- get_radiance I atm_light rawt ;;
  rad_refined <- get_radiance I atm_light refinedt ;;
  Ok [to_img Idark;
      to_img (grid_map (fun t => white * t) rawt);
      to_img (grid_map (fun t => white * t) refinedt);
      to_img_rgb rad_raw;
      to_img_rgb rad_refined].

End Pipeline.

(** An [M * N] array holding [x] everywhere. *)
Definition full {A} (M N : nat) (x : A) : grid A := repeat (repeat x N) M.

(** ** The windowed minimum as the specification words it *)

(** The index of the nearest valid position of an axis of length [n]. *)
Definition clamp_index (n : nat) (k : Z) : nat :=
  Z.to_nat (Z.max 0 (Z.min k (Z.of_nat n - 1))).

(** The pixel at [(i, j)], positions outside the image taking the value of
    the nearest border pixel. *)
Definition edge_get (I : image) (i j : Z) : pixel :=
  let '(M, N) := shape I in
  nth (clamp_index N j) (nth (clamp_index M i) I []) (0, 0, 0).

(** The values of the [w * w] window around [(i, j)]: rows
    [i - w/2 .. i - w/2 + w - 1], columns likewise, all three channels. *)
Definition neighbourhood (I : image) (w : Z) (i j : nat) : list Q :=
  let h := (w / 2)%Z in
  let offsets := seq 0 (Z.to_nat w) in
  flat_map channels
    (concat
       (map (fun di =>
               map (fun dj => edge_get I (Z.of_nat i + Z.of_nat di - h)
                                         (Z.of_nat j + Z.of_nat dj - h))
                   offsets)
            offsets)).

Definition is_min (m : Q) (l : list Q) : Prop :=
  In m l /\ forall x, In x l -> m <= x.

Definition is_max (m : Q) (l : list Q) : Prop :=
  In m l /\ forall x, In x l -> x <= m.

Definition qmin_list (l : list Q) : Q :=
  match l with
  | [] => 0
  | x :: t => fold_left Qmin t x
  end.

Definition pixel_eq (x y : pixel) : Prop :=
  chR x == chR y /\ chG x == chG y /\ chB x == chB y.

(** ** Predicates on inputs *)

Definition key_le (x y : Q * nat) : Prop := fst x <= fst y.

Definition nonneg_image (I : image) : Prop :=
  Forall (Forall (fun x => 0 <= chR x /\ 0 <= chG x /\ 0 <= chB x)) I.

Definition positive_picture (img : grid (Z * Z * Z)) : Prop :=
  Forall (Forall (fun x => (1 <= fst (fst x) /\ 1 <= snd (fst x)
                            /\ 1 <= snd x)%Z)) img.

Definition positive_image (I : image) : Prop :=
  Forall (Forall (fun x => 0 < chR x /\ 0 < chG x /\ 0 < chB x)) I.

(** Two values of the image differ: [I.max() - I.min()] is not 0. *)
Definition varied (I : image) : Prop :=
  exists x y, In x (flat_map channels (ravel I))
              /\ In y (flat_map channels (ravel I)) /\ ~ x == y.

(** ** A guided filter *)

Definition qmean (l : list Q) : Q :=
  fold_right Qplus 0 l / inject_Z (Z.of_nat (length l)).

Definition gray (x : pixel) : Q := (chR x + chG x + chB x) / 3.

(** Modelled from the spec: the guided filter, whose module is not among
    the sources, is described as a box-filter-based local linear regression
    of the input map on the guidance image, with the interface
    [refine(guidance, input, radius, eps)] and an output of the shape of the
    input.  This is the operator for a box that covers the whole image and
    the mean of the three channels as guidance: with [a] and [b] the
    regularised least-squares coefficients of the input on the guidance,
    the output is [a * guidance + b]. *)
Definition regression_filter (guidance : image) (t : grid Q) (r : Z) (eps : Q)
  : outcome (grid Q) :=
  let G := map gray (ravel guidance) in
  let P := ravel t in
  let cov := qmean (map (fun gp => fst gp * snd gp) (combine G P))
             - qmean G * qmean P in
  let var := qmean (map (fun g => g * g) G) - qmean G * qmean G in
  if Qeq_bool (var + eps) 0 then Raises NumericError
  else
    let a := cov / (var + eps) in
    let b := qmean P - a * qmean G in
    Ok (map (fun gt => map (fun xt => a * gray (fst xt) + b)
                           (combine (fst gt) (snd gt)))
            (combine guidance t)).

(** ** Sample inputs *)

Definition sample_image : image :=
  [[(9, 8, 7); (4, 5, 6); (3, 8, 9)];
   [(7, 8, 9); (2, 11, 12); (5, 5, 5)]].

Definition sample_dark : grid Q := [[7; 4; 3]; [7; 2; 5]].

(** The binary64 numbers nearest to 1/3 and to 1/6, the values of the
    Python literals [1/3.] and [1/6.]. *)
Definition third : Q := 6004799503160661 # 18014398509481984.
Definition sixth : Q := 6004799503160661 # 36028797018963968.

Definition gradient_picture : grid (Z * Z * Z) :=
  [[(200, 200, 200); (190, 190, 190); (100, 100, 100)]]%Z.

Definition black_picture : grid (Z * Z * Z) :=
  [[(0, 0, 0); (0, 0, 0)]; [(0, 0, 0); (0, 0, 0)]]%Z.

Definition sample_picture : grid (Z * Z * Z) :=
  [[(90, 80, 70); (40, 50, 60); (30, 80, 90)];
   [(70, 80, 90); (20, 110, 120); (50, 50, 50)]]%Z.

(** ** Further notions used by the properties *)

(** The least of the three channels of a pixel. *)
Definition pixel_min (x : pixel) : Q := Qmin (Qmin (chR x) (chG x)) (chB x).

(** [I[i, j]] *)
Definition pixel_at (I : image) (i j : nat) : pixel :=
  nth j (nth i I []) (0, 0, 0).

(** [a[i, j]] of a map. *)
Definition cell (g : grid Q) (i j : nat) : Q := nth j (nth i g []) 0.

(** Every channel value of the image lies between [lo] and [hi]. *)
Definition image_within (lo hi : Q) (I : image) : Prop :=
  Forall (Forall (fun x => forall v, In v (channels x) -> lo <= v <= hi)) I.

Definition grid_within (lo hi : Q) (g : grid Q) : Prop :=
  Forall (Forall (fun v => lo <= v <= hi)) g.

(** No pixel exceeds the light [A] in any channel. *)
Definition image_below (A : pixel) (I : image) : Prop :=
  Forall (Forall (fun x => chR x <= chR A /\ chG x <= chG A
                           /\ chB x <= chB A)) I.

(** The haze imaging model that [get_radiance] inverts (CVPR09): a scene of
    radiance [J] seen through transmission [t] under the light [A] gives
    [J * t + A * (1 - t)]. *)
Definition haze (A J : pixel) (t : Q) : pixel :=
  pixel_map2 (fun j a => j * t + a * (1 - t)) J A.

(** An 8-bit RGB picture: every value between 0 and 255. *)
Definition eight_bit (img : grid (Z * Z * Z)) : Prop :=
  Forall (Forall (fun x => (0 <= fst (fst x) <= 255 /\ 0 <= snd (fst x) <= 255
                            /\ 0 <= snd x <= 255)%Z)) img.

(** Every value of a picture is between 0 and [max_color_val - 1]. *)
Definition picture_in_range (pic : picture) : Prop :=
  match pic with
  | Gray g => Forall (Forall (fun v => (0 <= v <= max_color_val - 1)%Z)) g
  | Color g =>
      Forall (Forall (fun x => (0 <= fst (fst x) <= max_color_val - 1
                                /\ 0 <= snd (fst x) <= max_color_val - 1
                                /\ 0 <= snd x <= max_color_val - 1)%Z)) g
  end.

(** * Properties *)

(** ** The outcome monad *)

Lemma bind_Ok {A B} (c : outcome A) (k : A -> outcome B) (b : B) :
  bind c k = Ok b -> exists a, c = Ok a /\ k a = Ok b.
Proof.
  destruct c as [a | e |]; simpl; intros H; try discriminate.
  exists a; split; [reflexivity | exact H].
Qed.

Lemma mapM_Ok_map {A B} (f : A -> outcome B) (g : A -> B) (l : list A) :
  (forall x, In x l -> f x = Ok (g x)) -> mapM f l = Ok (map g l).
Proof.
  induction l as [| x t IH]; intros H; simpl.
  - reflexivity.
  - rewrite (H x (or_introl eq_refl)); simpl.
    rewrite IH by (intros y Hy; apply H; right; exact Hy).
    reflexivity.
Qed.

Lemma mapM_Ok_inv {A B} (f : A -> outcome B) (l : list A) (ys : list B) :
  mapM f l = Ok ys -> Forall2 (fun x y => f x = Ok y) l ys.
Proof.
  revert ys; induction l as [| x t IH]; intros ys H; simpl in H.
  - injection H as <-. constructor.
  - apply bind_Ok in H as (y & Hy & H).
    apply bind_Ok in H as (ys' & Hys & H).
    injection H as <-. constructor; [exact Hy | apply IH; exact Hys].
Qed.

Lemma mapM_Raises_hd {A B} (f : A -> outcome B) (x : A) (t : list A) e :
  f x = Raises e -> mapM f (x :: t) = Raises e.
Proof. intros H; simpl; rewrite H; reflexivity. Qed.

(** ** Lists *)

Lemma nth_map_seq {A} (f : nat -> A) (a n k : nat) (d : A) :
  (k < n)%nat -> nth k (map f (seq a n)) d = f (a + k)%nat.
Proof.
  intros Hk.
  rewrite (nth_indep _ d (f 0%nat)) by (rewrite length_map, length_seq; lia).
  rewrite map_nth, seq_nth by lia. reflexivity.
Qed.

Lemma nth_last_nonempty {A} (l : list A) (d d' : A) :
  l <> [] -> nth (length l - 1) l d = last l d'.
Proof.
  induction l as [| x t IH]; intros Hne; [congruence |].
  destruct t as [| y t'].
  - reflexivity.
  - replace (length (x :: y :: t') - 1)%nat with (S (length (y :: t') - 1))
      by (simpl; lia).
    change (nth (length (y :: t') - 1) (y :: t') d = last (y :: t') d').
    apply IH. discriminate.
Qed.

(** ** Edge padding *)

Lemma length_pad_edge {A} (n : nat) (l : list A) :
  l <> [] -> length (pad_edge n l) = (length l + 2 * n)%nat.
Proof.
  destruct l as [| x t]; [congruence | intros _].
  unfold pad_edge. rewrite !length_app, !repeat_length. lia.
Qed.

Lemma nth_pad_edge {A} (n : nat) (l : list A) (k : nat) (d : A) :
  l <> [] -> (k < length l + 2 * n)%nat ->
  nth k (pad_edge n l) d
  = nth (clamp_index (length l) (Z.of_nat k - Z.of_nat n)) l d.
Proof.
  intros Hne Hk. destruct l as [| x t]; [congruence |].
  unfold pad_edge. remember (x :: t) as l eqn:El.
  assert (Hlen : (1 <= length l)%nat) by (rewrite El; simpl; lia).
  destruct (Nat.lt_ge_cases k n) as [Hlt | Hge].
  - rewrite app_nth1 by (rewrite repeat_length; lia).
    rewrite nth_repeat_lt by lia.
    replace (clamp_index (length l) (Z.of_nat k - Z.of_nat n)) with 0%nat
      by (unfold clamp_index; lia).
    rewrite El. reflexivity.
  - rewrite app_nth2 by (rewrite repeat_length; lia).
    rewrite repeat_length.
    destruct (Nat.lt_ge_cases (k - n) (length l)) as [Hin | Hout].
    + rewrite app_nth1 by lia. f_equal. unfold clamp_index. lia.
    + rewrite app_nth2 by lia.
      rewrite nth_repeat_lt by lia.
      replace (clamp_index (length l) (Z.of_nat k - Z.of_nat n))
        with (length l - 1)%nat by (unfold clamp_index; lia).
      symmetry. apply nth_last_nonempty. rewrite El. discriminate.
Qed.

(** A slice of a padded axis reads the axis at clamped positions. *)
Lemma slice_pad_edge {A} (n w i : nat) (l : list A) (d : A) :
  l <> [] -> (i + w <= length l + 2 * n)%nat ->
  firstn w (skipn i (pad_edge n l))
  = map (fun k => nth (clamp_index (length l)
                                   (Z.of_nat i + Z.of_nat k - Z.of_nat n)) l d)
        (seq 0 w).
Proof.
  intros Hne Hw.
  apply (nth_ext _ _ d d).
  - rewrite length_firstn, length_skipn, length_pad_edge by assumption.
    rewrite length_map, length_seq. lia.
  - intros k Hk.
    rewrite length_firstn, length_skipn, length_pad_edge in Hk by assumption.
    rewrite nth_firstn.
    replace (k <? w)%nat with true by (symmetry; apply Nat.ltb_lt; lia).
    rewrite nth_skipn, nth_pad_edge by (assumption || lia).
    rewrite nth_map_seq by lia.
    f_equal. f_equal. lia.
Qed.

Lemma clamp_index_lt (n : nat) (k : Z) :
  (1 <= n)%nat -> (clamp_index n k < n)%nat.
Proof. unfold clamp_index. lia. Qed.

(** ** Minimum of a list *)

Lemma fold_left_Qmin_spec (t : list Q) (x : Q) :
  is_min (fold_left Qmin t x) (x :: t).
Proof.
  revert x; induction t as [| y t IH]; intros x.
  - split; [left; reflexivity |].
    intros z [<- | []]. apply Qle_refl.
  - simpl fold_left. destruct (IH (Qmin x y)) as [Hin Hle]. split.
    + destruct Hin as [Hin | Hin].
      * rewrite <- Hin. unfold Qmin, GenericMinMax.gmin.
        destruct (x ?= y); [left | left | right; left]; reflexivity.
      * right; right; exact Hin.
    + intros z [<- | [<- | Hz]].
      * eapply Qle_trans; [apply Hle; left; reflexivity | apply Q.le_min_l].
      * eapply Qle_trans; [apply Hle; left; reflexivity | apply Q.le_min_r].
      * apply Hle; right; exact Hz.
Qed.

Lemma np_min_nonempty (l : list Q) :
  l <> [] -> np_min l = Ok (qmin_list l) /\ is_min (qmin_list l) l.
Proof.
  destruct l as [| x t]; [congruence | intros _].
  split; [reflexivity | apply fold_left_Qmin_spec].
Qed.

(** ** The dark channel *)

Lemma shape_rect {A} (M N : nat) (g : grid A) :
  rect M N g -> (1 <= M)%nat -> shape g = (M, N).
Proof.
  intros [Hlen Hrows] HM. unfold shape. rewrite Hlen. f_equal.
  destruct g as [| r g']; [simpl in Hlen; lia |].
  simpl. inversion Hrows; assumption.
Qed.

Lemma rect_nth_length {A} (M N : nat) (g : grid A) (i : nat) :
  rect M N g -> (i < M)%nat -> length (nth i g []) = N.
Proof.
  intros [Hlen Hrows] Hi.
  rewrite Forall_forall in Hrows. apply Hrows, nth_In. lia.
Qed.

(** What the code reads in the padded array is what the specification
    reads in the image with edge replication. *)
Lemma window_neighbourhood (I : image) (M N : nat) (w : Z) (i j : nat) :
  rect M N I -> (1 <= M)%nat -> (1 <= N)%nat -> (1 <= w)%Z ->
  (i < M)%nat -> (j < N)%nat ->
  window (pad_edge (Z.to_nat (w / 2)) (map (pad_edge (Z.to_nat (w / 2))) I))
         (Z.to_nat w) i j
  = neighbourhood I w i j.
Proof.
  intros HI HM HN Hw Hi Hj.
  assert (Hh : (0 <= w / 2)%Z) by (apply Z.div_pos; lia).
  assert (Hw2 : (w <= 2 * (w / 2) + 1)%Z).
  { pose proof (Z.mod_pos_bound w 2 ltac:(lia)).
    pose proof (Z.div_mod w 2 ltac:(lia)). lia. }
  unfold window, neighbourhood, edge_get.
  rewrite (shape_rect M N I HI HM).
  f_equal. f_equal.
  destruct HI as [Hlen Hrows].
  rewrite (slice_pad_edge _ _ _ _ []).
  2: { intros E. apply (f_equal (@length _)) in E.
       rewrite length_map in E. simpl in E. lia. }
  2: { rewrite length_map. lia. }
  rewrite map_map, length_map, Hlen.
  apply map_ext_in. intros di Hdi. apply in_seq in Hdi.
  change (@nil pixel) with (pad_edge (Z.to_nat (w / 2)) (@nil pixel)) at 1.
  rewrite map_nth.
  assert (Hc : (clamp_index M (Z.of_nat i + Z.of_nat di
                                - Z.of_nat (Z.to_nat (w / 2))) < M)%nat)
    by (apply clamp_index_lt; lia).
  pose proof (rect_nth_length M N I _ (conj Hlen Hrows) Hc) as Hrow.
  rewrite (slice_pad_edge _ _ _ _ (0, 0, 0)).
  2: { intros E. rewrite E in Hrow. simpl in Hrow. lia. }
  2: { unfold image, grid, pixel in *. rewrite Hrow. lia. }
  unfold image, grid, pixel in *. rewrite Hrow.
  apply map_ext_in. intros dj Hdj.
  rewrite !Z2Nat.id by lia. reflexivity.
Qed.

Lemma neighbourhood_nonempty (I : image) (w : Z) (i j : nat) :
  (1 <= w)%Z -> neighbourhood I w i j <> [].
Proof.
  intros Hw. unfold neighbourhood.
  destruct (Z.to_nat w) as [| n] eqn:E; [lia |].
  rewrite <- cons_seq. simpl. discriminate.
Qed.

(** The dark channel computed cell by cell. *)
Lemma get_dark_channel_cells (I : image) (M N : nat) (w : Z) :
  rect M N I -> (1 <= M)%nat -> (1 <= N)%nat -> (1 <= w)%Z ->
  get_dark_channel I w
  = Ok (map (fun i => map (fun j => qmin_list (neighbourhood I w i j))
                          (seq 0 N))
            (seq 0 M)).
Proof.
  intros HI HM HN Hw. unfold get_dark_channel.
  rewrite (shape_rect M N I HI HM).
  unfold np_pad_edge.
  assert (Hh : (0 <= w / 2)%Z) by (apply Z.div_pos; lia).
  replace (w / 2 <? 0)%Z with false by (symmetry; apply Z.ltb_ge; exact Hh).
  simpl bind.
  apply mapM_Ok_map. intros i Hi. apply in_seq in Hi.
  apply mapM_Ok_map. intros j Hj. apply in_seq in Hj.
  rewrite (window_neighbourhood I M N) by (assumption || lia).
  apply np_min_nonempty, neighbourhood_nonempty. exact Hw.
Qed.

Lemma get_dark_channel_total (I : image) (M N : nat) (w : Z) :
  rect M N I -> (1 <= M)%nat -> (1 <= N)%nat -> (1 <= w)%Z ->
  exists dark, get_dark_channel I w = Ok dark /\ rect M N dark.
Proof.
  intros HI HM HN Hw.
  eexists. split; [apply (get_dark_channel_cells I M N w); assumption |].
  split.
  - rewrite length_map, length_seq. reflexivity.
  - apply Forall_forall. intros row Hrow.
    apply in_map_iff in Hrow as (i & <- & _).
    rewrite length_map, length_seq. reflexivity.
Qed.

(** C2.  For a well-formed [M * N] image and a window size [w >= 1],
    [get_dark_channel] returns an [M * N] grid whose cell [(i, j)] is the
    minimum, over the three channels, of the [w * w] window of rows
    [i - w/2 .. i - w/2 + w - 1] and columns [j - w/2 .. j - w/2 + w - 1]
    (centred on [(i, j)] when [w] is odd), a position outside the image
    taking the value of the nearest border pixel. *)
Theorem get_dark_channel_window_min (I : image) (M N : nat) (w : Z) :
  rect M N I -> (1 <= M)%nat -> (1 <= N)%nat -> (1 <= w)%Z ->
  exists dark,
    get_dark_channel I w = Ok dark /\
    rect M N dark /\
    forall i j, (i < M)%nat -> (j < N)%nat ->
      is_min (nth j (nth i dark []) 0) (neighbourhood I w i j).
Proof.
  intros HI HM HN Hw.
  eexists. split; [apply (get_dark_channel_cells I M N w); assumption |].
  split.
  - split.
    + rewrite length_map, length_seq. reflexivity.
    + apply Forall_forall. intros row Hrow.
      apply in_map_iff in Hrow as (i & <- & _).
      rewrite length_map, length_seq. reflexivity.
  - intros i j Hi Hj.
    rewrite (nth_map_seq _ 0 M i []) by exact Hi.
    rewrite (nth_map_seq _ 0 N j 0) by exact Hj.
    apply np_min_nonempty, neighbourhood_nonempty. exact Hw.
Qed.

Lemma get_dark_channel_window_min_witness :
  exists dark,
    get_dark_channel sample_image 3 = Ok dark /\
    rect 2 3 dark /\
    forall i j, (i < 2)%nat -> (j < 3)%nat ->
      is_min (nth j (nth i dark []) 0) (neighbourhood sample_image 3 i j).
Proof.
  apply (get_dark_channel_window_min sample_image 2 3 3).
  - split; [reflexivity | repeat constructor].
  - lia.
  - lia.
  - lia.
Defined.

(** ** The end-to-end scenario *)

(** C1.  On the 4 x 4 image whose pixels are all (100, 100, 100), with
    [w = 3], [p = 0.5], [omega = 0.95], [t_min = 0.2], [atm_max = 220] and
    [guided = false]: the dark channel is 100 everywhere, the atmosphere
    light is (100, 100, 100), the transmission estimate is 0.05 everywhere
    and is floored to 0.2, and the radiance recovered with that map is 100
    in every channel of every pixel, which is the input. *)
Theorem scenario_flat_gray
        (gf : image -> grid Q -> Z -> Q -> outcome (grid Q)) (r : Z) (eps : Q) :
  let I := full 4 4 (100, 100, 100) in
  get_dark_channel I 3 = Ok (full 4 4 100) /\
  get_atmosphere I (full 4 4 100) 0.5 = Ok (100, 100, 100) /\
  (exists raw,
      get_transmission I (100, 100, 100) 0.95 3 = Ok raw /\
      rect 4 4 raw /\
      Forall (Forall (fun t => t == 0.05)) raw) /\
  dehaze_raw gf I 0.2 220 3 0.5 0.95 false r eps
  = Ok (full 4 4 100, (100, 100, 100), full 4 4 0.2, full 4 4 0.2) /\
  (exists J,
      get_radiance I (100, 100, 100) (full 4 4 0.2) = Ok J /\
      Forall (Forall (fun x => chR x == 100 /\ chG x == 100 /\ chB x == 100)) J /\
      Forall2 (Forall2 pixel_eq) J I).
Proof.
  intros I. subst I.
  split; [vm_compute; reflexivity |].
  split; [vm_compute; reflexivity |].
  split.
  { eexists. split; [vm_compute; reflexivity |].
    split; [split; [reflexivity | repeat constructor] |].
    repeat constructor. }
  split; [vm_compute; reflexivity |].
  eexists. split; [vm_compute; reflexivity |].
  split; repeat constructor.
Qed.

(** ** [argsort] *)

Lemma insert_key_perm (x : Q * nat) (l : list (Q * nat)) :
  Permutation (insert_key x l) (x :: l).
Proof.
  induction l as [| y t IH]; simpl.
  - apply Permutation_refl.
  - destruct (Qle_bool (fst x) (fst y)).
    + apply Permutation_refl.
    + eapply perm_trans; [apply perm_skip, IH | apply perm_swap].
Qed.

Lemma sort_keys_perm (l : list (Q * nat)) : Permutation (sort_keys l) l.
Proof.
  induction l as [| x t IH]; simpl.
  - constructor.
  - eapply perm_trans; [apply insert_key_perm | apply perm_skip, IH].
Qed.

Lemma insert_key_sorted (x : Q * nat) (l : list (Q * nat)) :
  StronglySorted key_le l -> StronglySorted key_le (insert_key x l).
Proof.
  induction 1 as [| y t Hs IH Hall]; simpl.
  - constructor; constructor.
  - destruct (Qle_bool (fst x) (fst y)) eqn:E.
    + apply Qle_bool_iff in E.
      constructor; [constructor; assumption |].
      constructor; [exact E |].
      eapply Forall_impl; [| exact Hall].
      intros z Hz. unfold key_le in *. eapply Qle_trans; eassumption.
    + assert (Hyx : fst y <= fst x).
      { apply Qlt_le_weak, Qnot_le_lt. intros H.
        apply Qle_bool_iff in H. congruence. }
      constructor; [exact IH |].
      eapply Permutation_Forall;
        [apply Permutation_sym, insert_key_perm |].
      constructor; assumption.
Qed.

Lemma sort_keys_sorted (l : list (Q * nat)) :
  StronglySorted key_le (sort_keys l).
Proof.
  induction l as [| x t IH]; simpl.
  - constructor.
  - apply insert_key_sorted, IH.
Qed.

Lemma map_snd_combine_seq {A} (a : list A) (s : nat) :
  map snd (combine a (seq s (length a))) = seq s (length a).
Proof.
  revert s; induction a as [| x t IH]; intros s; simpl.
  - reflexivity.
  - f_equal. apply IH.
Qed.

Lemma combine_seq_key (a : list Q) (s : nat) (x : Q * nat) :
  In x (combine a (seq s (length a))) ->
  (s <= snd x)%nat /\ fst x = nth (snd x - s) a 0.
Proof.
  revert s; induction a as [| y t IH]; intros s; simpl.
  - intros [].
  - intros [<- | H]; simpl.
    + rewrite Nat.sub_diag. split; [lia | reflexivity].
    + apply IH in H as [Hs Hk]. split; [lia |].
      rewrite Hk. replace (snd x - s)%nat with (S (snd x - S s)) by lia.
      reflexivity.
Qed.

Lemma argsort_perm (a : list Q) :
  Permutation (argsort a) (seq 0 (length a)).
Proof.
  unfold argsort. rewrite <- (map_snd_combine_seq a 0) at 2.
  apply Permutation_map, sort_keys_perm.
Qed.

(** The values read through [argsort] are in ascending order. *)
Lemma argsort_sorted (a : list Q) :
  StronglySorted (fun i j => nth i a 0 <= nth j a 0) (argsort a).
Proof.
  unfold argsort.
  assert (Hkey : Forall (fun x => fst x = nth (snd x) a 0)
                        (sort_keys (combine a (seq 0 (length a))))).
  { eapply Permutation_Forall; [apply Permutation_sym, sort_keys_perm |].
    apply Forall_forall. intros x Hx.
    apply combine_seq_key in Hx as [_ Hx].
    rewrite Nat.sub_0_r in Hx. exact Hx. }
  pose proof (sort_keys_sorted (combine a (seq 0 (length a)))) as Hs.
  induction Hs as [| x t Hs IH Hall]; simpl.
  - constructor.
  - inversion Hkey as [| ? ? Hx Ht]; subst.
    constructor; [apply IH; exact Ht |].
    apply Forall_map.
    rewrite Forall_forall in *. intros y Hy.
    rewrite <- Hx, <- (Ht y Hy). apply Hall, Hy.
Qed.

Lemma argsort_NoDup (a : list Q) : NoDup (argsort a).
Proof.
  eapply Permutation_NoDup;
    [apply Permutation_sym, argsort_perm | apply seq_NoDup].
Qed.

Lemma argsort_In (a : list Q) (i : nat) :
  In i (argsort a) <-> (i < length a)%nat.
Proof.
  split; intros H.
  - eapply Permutation_in in H; [| apply argsort_perm].
    apply in_seq in H. lia.
  - eapply Permutation_in; [apply Permutation_sym, argsort_perm |].
    apply in_seq. lia.
Qed.

Lemma length_argsort (a : list Q) : length (argsort a) = length a.
Proof.
  rewrite (Permutation_length (argsort_perm a)). apply length_seq.
Qed.

(** Every element of a prefix of a sorted list is below every element of
    the rest. *)
Lemma sorted_prefix_below {A} (R : A -> A -> Prop) (l : list A) (n : nat) :
  StronglySorted R l ->
  forall x y, In x (firstn n l) -> In y (skipn n l) -> R x y.
Proof.
  intros Hs; revert n; induction Hs as [| a t Hs IH Hall]; intros n x y.
  - rewrite firstn_nil. intros [].
  - destruct n as [| n]; simpl; [intros [] |].
    intros [<- | Hx] Hy.
    + rewrite Forall_forall in Hall. apply Hall.
      rewrite <- (firstn_skipn n t). apply in_or_app. right. exact Hy.
    + eapply IH; eassumption.
Qed.

(** ** Truncation and slices *)

Lemma py_int_floor_nonneg (x : Q) : 0 <= x -> py_int x = Qfloor x.
Proof.
  destruct x as [n d]. unfold py_int, Qfloor, Qle. simpl. intros H.
  apply Z.quot_div_nonneg; lia.
Qed.

(** ** Rounding to binary64 *)

Lemma rne_bounds (x : Q) : (Qfloor x <= rne x <= Qfloor x + 1)%Z.
Proof.
  unfold rne. destruct (2 * (x - inject_Z (Qfloor x)) ?= 1);
    [destruct (Z.even (Qfloor x)) | |]; lia.
Qed.

Lemma rne_comp (x y : Q) : x == y -> rne x = rne y.
Proof.
  intros H. unfold rne. rewrite (Qfloor_comp x y H).
  assert (E : 2 * (x - inject_Z (Qfloor y)) == 2 * (y - inject_Z (Qfloor y)))
    by (rewrite H; reflexivity).
  rewrite (Qcompare_comp _ _ E 1 1 (Qeq_refl 1)). reflexivity.
Qed.

Lemma rne_inject_Z (n : Z) : rne (inject_Z n) = n.
Proof.
  unfold rne. rewrite Qfloor_Z.
  assert (E : 2 * (inject_Z n - inject_Z n) < 1) by lra.
  apply (proj1 (Qlt_alt _ _)) in E. rewrite E. reflexivity.
Qed.

Lemma rne_le (x y : Q) : x <= y -> (rne x <= rne y)%Z.
Proof.
  intros Hxy. pose proof (Qfloor_resp_le x y Hxy) as Hf.
  destruct (Z.eq_dec (Qfloor x) (Qfloor y)) as [E | E].
  2: { pose proof (rne_bounds x). pose proof (rne_bounds y). lia. }
  unfold rne. rewrite E.
  destruct (2 * (x - inject_Z (Qfloor y)) ?= 1) eqn:Cx;
    destruct (2 * (y - inject_Z (Qfloor y)) ?= 1) eqn:Cy;
    try (destruct (Z.even (Qfloor y))); try lia; exfalso;
    try apply (proj2 (Qeq_alt _ _)) in Cx; try apply (proj2 (Qlt_alt _ _)) in Cx;
    try apply (proj2 (Qgt_alt _ _)) in Cx;
    try apply (proj2 (Qeq_alt _ _)) in Cy; try apply (proj2 (Qlt_alt _ _)) in Cy;
    try apply (proj2 (Qgt_alt _ _)) in Cy; lra.
Qed.

Lemma pow2_pos (e : Z) : 0 < 2 ^ e.
Proof. apply Qpower_0_lt. reflexivity. Qed.

Lemma pow2_inject_Z (n : Z) : (0 <= n)%Z -> inject_Z (2 ^ n) == 2 ^ n.
Proof. intros H. apply (Zpower_Qpower 2 n H). Qed.

Lemma pow2_scale (k e : Z) : (0 <= k)%Z -> inject_Z (2 ^ k) * 2 ^ (e - k) == 2 ^ e.
Proof.
  intros Hk. rewrite (pow2_inject_Z k Hk).
  rewrite <- Qpower_plus by (intros H; discriminate H).
  replace (k + (e - k))%Z with e by lia. reflexivity.
Qed.

Lemma pow2_le (e1 e2 : Z) : (e1 <= e2)%Z -> 2 ^ e1 <= 2 ^ e2.
Proof. intros H. apply Qpower_le_compat_l; [exact H | discriminate]. Qed.

Lemma binade_spec (a : Q) :
  0 < a -> 2 ^ binade a <= a /\ a < 2 ^ (binade a + 1).
Proof.
  intros Ha. unfold binade. destruct (Qle_bool 1 a) eqn:E1.
  - apply Qle_bool_iff in E1.
    assert (Hf : (1 <= Qfloor a)%Z).
    { change 1%Z with (Qfloor 1). apply Qfloor_resp_le, E1. }
    pose proof (Z.log2_nonneg (Qfloor a)) as HL.
    destruct (Z.log2_spec (Qfloor a)) as [Hlo Hhi]; [lia |].
    split.
    + rewrite <- (pow2_inject_Z _ HL).
      apply Qle_trans with (inject_Z (Qfloor a)); [| apply Qfloor_le].
      rewrite <- Zle_Qle. exact Hlo.
    + rewrite <- pow2_inject_Z by lia.
      apply Qlt_le_trans with (inject_Z (Qfloor a + 1)); [apply Qlt_floor |].
      rewrite <- Zle_Qle. unfold Z.succ in Hhi. lia.
  - assert (Ha1 : a < 1).
    { apply Qnot_le_lt. intros H. apply Qle_bool_iff in H. congruence. }
    assert (Hy : 1 < / a).
    { apply Qlt_shift_inv_l; [exact Ha | lra]. }
    assert (Hc : (1 < Qceiling (/ a))%Z).
    { pose proof (Qle_ceiling (/ a)) as H.
      assert (H1 : inject_Z 1 < inject_Z (Qceiling (/ a)))
        by (apply Qlt_le_trans with (/ a); assumption).
      rewrite <- Zlt_Qlt in H1. exact H1. }
    destruct (Z.log2_up_spec _ Hc) as [Hlo Hhi].
    set (j := Z.log2_up (Qceiling (/ a))) in *.
    assert (Hj : (0 < j)%Z) by (apply Z.log2_up_pos, Hc).
    assert (Hya : a * / a == 1) by (field; lra).
    split.
    + rewrite Qpower_opp.
      apply Qle_shift_inv_r; [apply pow2_pos |].
      rewrite <- pow2_inject_Z by lia.
      apply Qle_trans with (a * inject_Z (Qceiling (/ a))).
      * rewrite <- Hya at 1.
        apply Qmult_le_l; [exact Ha | apply Qle_ceiling].
      * apply Qmult_le_l; [exact Ha |]. rewrite <- Zle_Qle. exact Hhi.
    + replace (- j + 1)%Z with (- Z.pred j)%Z by lia.
      rewrite Qpower_opp.
      apply Qlt_shift_inv_l; [apply pow2_pos |].
      rewrite <- pow2_inject_Z by lia.
      apply Qle_lt_trans with (a * inject_Z (Qceiling (/ a) - 1)).
      * apply Qmult_le_l; [exact Ha |]. rewrite <- Zle_Qle. lia.
      * rewrite <- Hya at 1.
        apply Qmult_lt_l; [exact Ha | apply Qceiling_lt].
Qed.

Lemma binade_le (a b : Q) : 0 < a -> a <= b -> (binade a <= binade b)%Z.
Proof.
  intros Ha Hab. assert (Hb : 0 < b) by (apply Qlt_le_trans with a; assumption).
  destruct (binade_spec a Ha) as [Hlo _].
  destruct (binade_spec b Hb) as [_ Hhi].
  assert (H : 2 ^ binade a < 2 ^ (binade b + 1)).
  { apply Qle_lt_trans with a; [exact Hlo |].
    apply Qle_lt_trans with b; assumption. }
  apply Qpower_lt_compat_l_inv in H; [lia | reflexivity].
Qed.

(** The significand of a binary64 number has 53 bits. *)
Lemma significand_range (a : Q) :
  0 < a ->
  (2 ^ 52 <= rne (a / 2 ^ (binade a - 52)) <= 2 ^ 53)%Z.
Proof.
  intros Ha. destruct (binade_spec a Ha) as (Hlo & Hhi).
  pose proof (pow2_pos (binade a - 52)) as Hs.
  split.
  - rewrite <- (rne_inject_Z (2 ^ 52)). apply rne_le.
    apply Qle_shift_div_l; [exact Hs |].
    rewrite pow2_scale by lia. exact Hlo.
  - rewrite <- (rne_inject_Z (2 ^ 53)). apply rne_le.
    apply Qle_shift_div_r; [exact Hs |].
    setoid_replace (inject_Z (2 ^ 53) * 2 ^ (binade a - 52))
      with (2 ^ (binade a + 1)); [apply Qlt_le_weak, Hhi |].
    replace (binade a - 52)%Z with (binade a + 1 - 53)%Z by lia.
    apply pow2_scale. lia.
Qed.

Lemma round_pos_binade (a : Q) :
  0 < a -> 2 ^ binade a <= round_pos a /\ round_pos a <= 2 ^ (binade a + 1).
Proof.
  intros Ha. destruct (significand_range a Ha) as [Hlo Hhi].
  pose proof (pow2_pos (binade a - 52)) as Hs.
  unfold round_pos. split.
  - rewrite <- (pow2_scale 52 (binade a)) by lia.
    apply Qmult_le_compat_r; [| apply Qlt_le_weak, Hs].
    rewrite <- Zle_Qle. exact Hlo.
  - replace (binade a - 52)%Z with (binade a + 1 - 53)%Z in * by lia.
    rewrite <- (pow2_scale 53 (binade a + 1)) by lia.
    apply Qmult_le_compat_r; [| apply Qlt_le_weak, Hs].
    rewrite <- Zle_Qle. exact Hhi.
Qed.

Lemma round_pos_le (a b : Q) : 0 < a -> a <= b -> round_pos a <= round_pos b.
Proof.
  intros Ha Hab. assert (Hb : 0 < b) by (apply Qlt_le_trans with a; assumption).
  pose proof (binade_le a b Ha Hab) as HL.
  destruct (Z.eq_dec (binade a) (binade b)) as [E | E].
  - unfold round_pos. rewrite E.
    pose proof (pow2_pos (binade b - 52)) as Hs.
    apply Qmult_le_compat_r; [| apply Qlt_le_weak, Hs].
    rewrite <- Zle_Qle. apply rne_le.
    apply Qmult_le_compat_r; [exact Hab |].
    apply Qlt_le_weak, Qinv_lt_0_compat, Hs.
  - apply Qle_trans with (2 ^ (binade a + 1));
      [apply (round_pos_binade a Ha) |].
    apply Qle_trans with (2 ^ binade b);
      [apply pow2_le; lia | apply (round_pos_binade b Hb)].
Qed.

Lemma round_pos_pos (a : Q) : 0 < a -> 0 < round_pos a.
Proof.
  intros Ha. apply Qlt_le_trans with (2 ^ binade a);
    [apply pow2_pos | apply (round_pos_binade a Ha)].
Qed.

(** An integer of at most 53 bits is a binary64 number. *)
Lemma round_pos_inject_Z (n : Z) :
  (1 <= n <= 2 ^ 53)%Z -> round_pos (inject_Z n) == inject_Z n.
Proof.
  intros Hn.
  assert (Ha : 0 < inject_Z n)
    by (change 0 with (inject_Z 0); rewrite <- Zlt_Qlt; lia).
  destruct (binade_spec _ Ha) as (Hlo & Hhi).
  set (L := binade (inject_Z n)) in *.
  pose proof (pow2_pos (L - 52)) as Hs.
  assert (E1 : Qle_bool 1 (inject_Z n) = true).
  { apply Qle_bool_iff. change 1 with (inject_Z 1). rewrite <- Zle_Qle. lia. }
  assert (HL : (0 <= L <= 53)%Z).
  { unfold L, binade. rewrite E1, Qfloor_Z. split; [apply Z.log2_nonneg |].
    change 53%Z with (Z.log2 (2 ^ 53)). apply Z.log2_le_mono. lia. }
  unfold round_pos. fold L.
  destruct (Z.eq_dec L 53) as [E | E].
  - assert (Hn' : n = (2 ^ 53)%Z).
    { rewrite E in Hlo. rewrite <- pow2_inject_Z in Hlo by lia.
      rewrite <- Zle_Qle in Hlo. lia. }
    rewrite E, Hn'. vm_compute. reflexivity.
  - assert (Hk : inject_Z n / 2 ^ (L - 52) == inject_Z (n * 2 ^ (52 - L))).
    { rewrite inject_Z_mult, pow2_inject_Z by lia.
      replace (L - 52)%Z with (- (52 - L))%Z by lia.
      rewrite Qpower_opp. field.
      apply Qpower_not_0. discriminate. }
    rewrite (rne_comp _ _ Hk), rne_inject_Z.
    rewrite inject_Z_mult, pow2_inject_Z by lia.
    replace (L - 52)%Z with (- (52 - L))%Z by lia.
    rewrite Qpower_opp. field.
    apply Qpower_not_0. discriminate.
Qed.

Lemma round64_pos (x : Q) : 0 < x -> round64 x = round_pos x.
Proof.
  intros H. unfold round64.
  rewrite (proj1 (Qgt_alt x 0) H). reflexivity.
Qed.

Lemma round64_zero (x : Q) : x == 0 -> round64 x = 0.
Proof.
  intros H. unfold round64. rewrite (proj1 (Qeq_alt x 0) H). reflexivity.
Qed.

(** Rounding is monotone on the non-negative numbers. *)
Lemma round64_le (x y : Q) : 0 <= x -> x <= y -> round64 x <= round64 y.
Proof.
  intros Hx Hxy. destruct (Qlt_le_dec 0 x) as [H0 | H0].
  - rewrite !round64_pos by lra. apply round_pos_le; assumption.
  - rewrite (round64_zero x) by lra.
    destruct (Qlt_le_dec 0 y) as [Hy | Hy].
    + rewrite round64_pos by exact Hy. apply Qlt_le_weak, round_pos_pos, Hy.
    + rewrite (round64_zero y) by lra. lra.
Qed.

Lemma round64_inject_Z (n : Z) :
  (0 <= n <= 2 ^ 53)%Z -> round64 (inject_Z n) == inject_Z n.
Proof.
  intros Hn. destruct (Z.eq_dec n 0) as [-> | E]; [reflexivity |].
  rewrite round64_pos
    by (change 0 with (inject_Z 0); rewrite <- Zlt_Qlt; lia).
  apply round_pos_inject_Z. lia.
Qed.

(** ** The truncated product *)

Lemma py_int_le (x y : Q) : 0 <= x -> x <= y -> (py_int x <= py_int y)%Z.
Proof.
  intros Hx Hxy. rewrite !py_int_floor_nonneg by lra.
  apply Qfloor_resp_le, Hxy.
Qed.

Lemma py_int_inject_Z (n : Z) : py_int (inject_Z n) = n.
Proof. unfold py_int, inject_Z. simpl. apply Z.quot_1_r. Qed.

Lemma py_int_Qeq (x y : Q) : 0 <= x -> x == y -> py_int x = py_int y.
Proof.
  intros Hx E. rewrite !py_int_floor_nonneg by lra. apply Qfloor_comp, E.
Qed.

(** The truncated binary64 product is the exact floor or one more. *)
Lemma count_floor (x : Q) :
  0 <= x -> x <= inject_Z (2 ^ 53) ->
  (Qfloor x <= py_int (round64 x) <= Qfloor x + 1)%Z.
Proof.
  intros H0 H1.
  assert (Hf0 : (0 <= Qfloor x)%Z)
    by (change 0%Z with (Qfloor 0); apply Qfloor_resp_le, H0).
  assert (Hf1 : (Qfloor x <= 2 ^ 53)%Z)
    by (rewrite <- (Qfloor_Z (2 ^ 53)); apply Qfloor_resp_le, H1).
  assert (Hr0 : 0 <= round64 x)
    by (change 0 with (round64 0); apply round64_le; lra).
  split.
  - rewrite <- (py_int_inject_Z (Qfloor x)).
    rewrite <- (py_int_Qeq (round64 (inject_Z (Qfloor x))) (inject_Z (Qfloor x))).
    + apply py_int_le.
      * change 0 with (round64 0). apply round64_le; [lra |].
        change 0 with (inject_Z 0). rewrite <- Zle_Qle. exact Hf0.
      * apply round64_le; [| apply Qfloor_le].
        change 0 with (inject_Z 0). rewrite <- Zle_Qle. exact Hf0.
    + change 0 with (round64 0). apply round64_le; [lra |].
      change 0 with (inject_Z 0). rewrite <- Zle_Qle. exact Hf0.
    + apply round64_inject_Z. lia.
  - destruct (Z.eq_dec (Qfloor x) (2 ^ 53)) as [E | E].
    + assert (Hx : x == inject_Z (2 ^ 53)).
      { apply Qle_antisym; [exact H1 |]. rewrite <- E. apply Qfloor_le. }
      rewrite (py_int_Qeq (round64 x) (inject_Z (2 ^ 53))).
      * rewrite py_int_inject_Z. lia.
      * exact Hr0.
      * rewrite <- (round64_inject_Z (2 ^ 53)) by lia.
        apply Qle_antisym; apply round64_le; lra.
    + rewrite <- (py_int_inject_Z (Qfloor x + 1)).
      rewrite <- (py_int_Qeq (round64 (inject_Z (Qfloor x + 1)))
                             (inject_Z (Qfloor x + 1))).
      * apply py_int_le; [exact Hr0 |].
        apply round64_le; [exact H0 | apply Qlt_le_weak, Qlt_floor].
      * change 0 with (round64 0). apply round64_le; [lra |].
        change 0 with (inject_Z 0). rewrite <- Zle_Qle. lia.
      * apply round64_inject_Z. lia.
Qed.

(** A product of at least one keeps at least one position. *)
Lemma count_ge_1 (x : Q) : (1 <= Qfloor x)%Z -> (1 <= py_int (round64 x))%Z.
Proof.
  intros H.
  assert (Hx : 1 <= x).
  { apply Qle_trans with (inject_Z (Qfloor x)); [| apply Qfloor_le].
    change 1 with (inject_Z 1). rewrite <- Zle_Qle. exact H. }
  change 1%Z with (py_int (round64 1)).
  apply py_int_le; [vm_compute; discriminate | apply round64_le; lra].
Qed.

Lemma count_le (x y : Q) :
  0 <= x -> x <= y -> (py_int (round64 x) <= py_int (round64 y))%Z.
Proof.
  intros Hx Hxy. apply py_int_le; [| apply round64_le; assumption].
  change 0 with (round64 0). apply round64_le; lra.
Qed.

Lemma count_ge_inject_Z (n : Z) (x : Q) :
  (0 <= n <= 2 ^ 53)%Z -> inject_Z n <= x -> (n <= py_int (round64 x))%Z.
Proof.
  intros Hn Hx.
  assert (H0 : 0 <= inject_Z n)
    by (change 0 with (inject_Z 0); rewrite <- Zle_Qle; lia).
  rewrite <- (py_int_inject_Z n) at 1.
  rewrite <- (py_int_Qeq (round64 (inject_Z n)) (inject_Z n)).
  - apply count_le; assumption.
  - change 0 with (round64 0). apply round64_le; [lra | exact H0].
  - apply round64_inject_Z, Hn.
Qed.

Lemma count_le_inject_Z (n : Z) (x : Q) :
  (0 <= n <= 2 ^ 53)%Z -> 0 <= x -> x <= inject_Z n ->
  (py_int (round64 x) <= n)%Z.
Proof.
  intros Hn H0 Hx.
  rewrite <- (py_int_inject_Z n) at 1.
  rewrite <- (py_int_Qeq (round64 (inject_Z n)) (inject_Z n)).
  - apply count_le; assumption.
  - change 0 with (round64 0). apply round64_le; lra.
  - apply round64_inject_Z, Hn.
Qed.

(** Below the last binary64 number under one, the product truncates to zero. *)
Lemma count_zero (x : Q) :
  0 <= x -> x <= 1 - 2 ^ (-53) -> py_int (round64 x) = 0%Z.
Proof.
  intros H0 H1.
  assert (Hr : round64 x <= 1 - 2 ^ (-53)).
  { setoid_replace (1 - 2 ^ (-53)) with (round64 (1 - 2 ^ (-53)));
      [apply round64_le; assumption | vm_compute; reflexivity]. }
  assert (Hr0 : 0 <= round64 x)
    by (change 0 with (round64 0); apply round64_le; lra).
  rewrite py_int_floor_nonneg by exact Hr0.
  apply Z.le_antisymm.
  - assert (H : (Qfloor (round64 x) < 1)%Z); [| lia].
    rewrite Zlt_Qlt. apply Qle_lt_trans with (round64 x); [apply Qfloor_le |].
    apply Qle_lt_trans with (1 - 2 ^ (-53)); [exact Hr | reflexivity].
  - change 0%Z with (Qfloor 0). apply Qfloor_resp_le, Hr0.
Qed.

(** ** Flattened arrays *)

Lemma list_sum_const (l : list nat) (n : nat) :
  Forall (fun x => x = n) l -> list_sum l = (length l * n)%nat.
Proof.
  induction 1 as [| x t Hx _ IH]; simpl; [reflexivity |].
  rewrite IH, Hx. reflexivity.
Qed.

Lemma length_ravel {A} (M N : nat) (g : grid A) :
  rect M N g -> length (ravel g) = (M * N)%nat.
Proof.
  intros [Hlen Hrows]. unfold ravel.
  rewrite length_concat, (list_sum_const _ N).
  - rewrite length_map, Hlen. reflexivity.
  - apply Forall_map. exact Hrows.
Qed.

Lemma nth_map_Qopp (l : list Q) (i : nat) :
  nth i (map Qopp l) 0 = - nth i l 0.
Proof. exact (map_nth Qopp l 0 i). Qed.

Lemma take_Ok {A} (l : list A) (idx : list nat) (d : A) :
  (forall i, In i idx -> (i < length l)%nat) ->
  take l idx = Ok (map (fun i => nth i l d) idx).
Proof.
  intros H. unfold take. apply mapM_Ok_map. intros i Hi.
  rewrite (nth_error_nth' l d (H i Hi)). reflexivity.
Qed.

(** ** Maximum of a list, of the columns of a list of pixels *)

Lemma fold_left_Qmax_spec (t : list Q) (x : Q) :
  is_max (fold_left Qmax t x) (x :: t).
Proof.
  revert x; induction t as [| y t IH]; intros x.
  - split; [left; reflexivity |].
    intros z [<- | []]. apply Qle_refl.
  - simpl fold_left. destruct (IH (Qmax x y)) as [Hin Hle]. split.
    + destruct Hin as [Hin | Hin].
      * rewrite <- Hin. unfold Qmax, GenericMinMax.gmax.
        destruct (x ?= y); [left | right; left | left]; reflexivity.
      * right; right; exact Hin.
    + intros z [<- | [<- | Hz]].
      * eapply Qle_trans; [apply Q.le_max_l | apply Hle; left; reflexivity].
      * eapply Qle_trans; [apply Q.le_max_r | apply Hle; left; reflexivity].
      * apply Hle; right; exact Hz.
Qed.

Lemma fold_left_pixel_max (ch : pixel -> Q) (t : list pixel) (x : pixel) :
  (forall a b, ch (pixel_map2 Qmax a b) = Qmax (ch a) (ch b)) ->
  ch (fold_left (pixel_map2 Qmax) t x) = fold_left Qmax (map ch t) (ch x).
Proof.
  intros Hch. revert x; induction t as [| y t IH]; intros x; simpl.
  - reflexivity.
  - rewrite IH, Hch. reflexivity.
Qed.

Lemma np_max_axis0_spec (sel : list pixel) :
  sel <> [] ->
  exists A, np_max_axis0 sel = Ok A /\
            is_max (chR A) (map chR sel) /\
            is_max (chG A) (map chG sel) /\
            is_max (chB A) (map chB sel).
Proof.
  destruct sel as [| x t]; [congruence | intros _].
  eexists. split; [reflexivity |].
  repeat split;
    (rewrite fold_left_pixel_max by reflexivity;
     apply (fold_left_Qmax_spec _ _)).
Qed.

(** ** The stages of [dehaze_raw] *)

(** A run of [dehaze_raw] that returns went through every stage. *)
Lemma dehaze_raw_Ok gf I t_min atm_max w p omega guided r eps
      Idark A rawt refinedt :
  dehaze_raw gf I t_min atm_max w p omega guided r eps
  = Ok (Idark, A, rawt, refinedt) ->
  exists A0 raw0,
    get_dark_channel I w = Ok Idark /\
    get_atmosphere I Idark p = Ok A0 /\
    A = np_minimum A0 atm_max /\
    get_transmission I A omega w = Ok raw0 /\
    rawt = np_maximum raw0 t_min /\
    (if guided
     then exists normI, normalize I = Ok normI /\
                        gf normI rawt r eps = Ok refinedt
     else refinedt = rawt).
Proof.
  unfold dehaze_raw. intros H.
  apply bind_Ok in H as (Idark' & Hd & H).
  apply bind_Ok in H as (A0 & HA & H).
  apply bind_Ok in H as (raw0 & Ht & H).
  apply bind_Ok in H as (ref & Hr & H).
  injection H as <- <- <- <-.
  exists A0, raw0. repeat split; try assumption.
  destruct guided.
  - apply bind_Ok in Hr as (normI & Hn & Hg). exists normI. split; assumption.
  - injection Hr as <-. reflexivity.
Qed.

(** Without the guided filter the run returns as soon as the three
    estimation stages do. *)
Lemma dehaze_raw_unguided gf I t_min atm_max w p omega r eps Idark A0 raw0 :
  get_dark_channel I w = Ok Idark ->
  get_atmosphere I Idark p = Ok A0 ->
  get_transmission I (np_minimum A0 atm_max) omega w = Ok raw0 ->
  dehaze_raw gf I t_min atm_max w p omega false r eps
  = Ok (Idark, np_minimum A0 atm_max,
        np_maximum raw0 t_min, np_maximum raw0 t_min).
Proof.
  intros Hd HA Ht. unfold dehaze_raw.
  rewrite Hd; simpl. rewrite HA; simpl.
  rewrite Ht; simpl. reflexivity.
Qed.

Lemma np_minimum_le (atm_max : Q) (A : pixel) :
  chR (np_minimum A atm_max) <= atm_max /\
  chG (np_minimum A atm_max) <= atm_max /\
  chB (np_minimum A atm_max) <= atm_max.
Proof. repeat split; apply Q.le_min_r. Qed.

(** ** Atmosphere light *)

(** A product whose exact floor is at least one keeps at least one
    position. *)
Lemma selection_count_ge_1 (M N : nat) (p : Q) :
  (1 <= Qfloor (inject_Z (Z.of_nat (M * N)) * p))%Z ->
  (1 <= selection_count M N p)%Z.
Proof. apply count_ge_1. Qed.

Lemma search_idx_prefix (dark : grid Q) (M N : nat) (p : Q) :
  rect M N dark -> (1 <= M)%nat ->
  (0 <= selection_count M N p)%Z ->
  search_idx dark p
  = firstn (Z.to_nat (selection_count M N p))
           (argsort (map Qopp (ravel dark))).
Proof.
  intros Hd HM Hk. unfold search_idx. rewrite (shape_rect M N dark Hd HM).
  fold (selection_count M N p). unfold slice_to.
  replace (_ <? 0)%Z with false by (symmetry; apply Z.ltb_ge; lia).
  reflexivity.
Qed.

(** The positions that [get_atmosphere] selects and what it returns. *)
Lemma atmosphere_selection (I : image) (dark : grid Q) (M N : nat) (p : Q) :
  rect M N I -> rect M N dark -> (1 <= M)%nat -> (1 <= N)%nat ->
  (1 <= selection_count M N p)%Z ->
  let k := Z.to_nat (selection_count M N p) in
  let idx := search_idx dark p in
  let flat_dark := ravel dark in
  let flat_I := ravel I in
  length idx = Nat.min k (M * N) /\
  NoDup idx /\
  (forall i, In i idx -> (i < M * N)%nat) /\
  (forall i j, In i idx -> (j < M * N)%nat -> ~ In j idx ->
               nth j flat_dark 0 <= nth i flat_dark 0) /\
  (exists A,
      get_atmosphere I dark p = Ok A /\
      is_max (chR A) (map (fun i => chR (nth i flat_I (0, 0, 0))) idx) /\
      is_max (chG A) (map (fun i => chG (nth i flat_I (0, 0, 0))) idx) /\
      is_max (chB A) (map (fun i => chB (nth i flat_I (0, 0, 0))) idx)).
Proof.
  intros HI Hd HM HN Hk k idx flat_dark flat_I.
  assert (Hidx : idx = firstn k (argsort (map Qopp flat_dark)))
    by (apply (search_idx_prefix dark M N p); [assumption | assumption | lia]).
  assert (Hlen : length (argsort (map Qopp flat_dark)) = (M * N)%nat).
  { rewrite length_argsort, length_map. apply length_ravel. exact Hd. }
  assert (Hin : forall i, In i idx -> (i < M * N)%nat).
  { intros i Hi. rewrite Hidx in Hi.
    rewrite <- (firstn_skipn k (argsort (map Qopp flat_dark))) in Hlen.
    assert (Hi' : In i (argsort (map Qopp flat_dark))).
    { rewrite <- (firstn_skipn k). apply in_or_app. left. exact Hi. }
    apply argsort_In in Hi'. rewrite length_map in Hi'.
    unfold flat_dark in Hi'. rewrite (length_ravel M N dark Hd) in Hi'.
    exact Hi'. }
  assert (Hcount : length idx = Nat.min k (M * N)).
  { rewrite Hidx, length_firstn, Hlen. reflexivity. }
  split; [exact Hcount |].
  split.
  { rewrite Hidx.
    apply (NoDup_app_remove_r _ (skipn k (argsort (map Qopp flat_dark)))).
    rewrite firstn_skipn. apply argsort_NoDup. }
  split; [exact Hin |].
  split.
  { intros i j Hi Hj Hnj. rewrite Hidx in Hi, Hnj.
    assert (Hj' : In j (skipn k (argsort (map Qopp flat_dark)))).
    { assert (Hjs : In j (argsort (map Qopp flat_dark))).
      { apply argsort_In. rewrite length_map. unfold flat_dark.
        rewrite (length_ravel M N dark Hd). exact Hj. }
      rewrite <- (firstn_skipn k) in Hjs.
      apply in_app_or in Hjs as [Hjs | Hjs]; [contradiction | exact Hjs]. }
    pose proof (sorted_prefix_below _ _ k (argsort_sorted (map Qopp flat_dark))
                                    i j Hi Hj') as Hle.
    simpl in Hle. rewrite !nth_map_Qopp in Hle.
    apply Qopp_le_compat in Hle. rewrite !Qopp_involutive in Hle.
    exact Hle. }
  { unfold get_atmosphere. rewrite (shape_rect M N dark Hd HM).
    fold flat_I. unfold flat_I at 1. rewrite (length_ravel M N I HI).
    rewrite Nat.eqb_refl. simpl bind.
    fold idx. rewrite (take_Ok flat_I idx (0, 0, 0)).
    2: { intros i Hi. unfold flat_I. rewrite (length_ravel M N I HI).
         apply Hin, Hi. }
    simpl bind.
    destruct (np_max_axis0_spec (map (fun i => nth i flat_I (0, 0, 0)) idx))
      as (A & HA & HR & HG & HB).
    { intros E. apply (f_equal (@length _)) in E.
      rewrite length_map, Hcount in E. simpl in E.
      assert (1 <= M * N)%nat by nia. lia. }
    rewrite !map_map in HR, HG, HB.
    exists A. repeat split; assumption || apply HR || apply HG || apply HB. }
Qed.

Lemma Qmult_le_nonneg_l (x y z : Q) : 0 <= z -> x <= y -> z * x <= z * y.
Proof.
  intros Hz Hxy. rewrite (Qmult_comm z x), (Qmult_comm z y).
  apply Qmult_le_compat_r; assumption.
Qed.

(** For a fraction of at most one the slice is never cut short: the count
    is at most the number of pixels, and it is the exact floor of the
    product or one more. *)
Lemma selection_count_fraction (M N : nat) (p : Q) :
  (Z.of_nat (M * N) <= 2 ^ 53)%Z -> 0 <= p -> p <= 1 ->
  let x := inject_Z (Z.of_nat (M * N)) * p in
  (selection_count M N p <= Z.of_nat (M * N))%Z /\
  (Qfloor x <= selection_count M N p <= Qfloor x + 1)%Z.
Proof.
  intros Hsize Hp0 Hp1 x.
  assert (Hn : 0 <= inject_Z (Z.of_nat (M * N)))
    by (change 0 with (inject_Z 0); rewrite <- Zle_Qle; lia).
  assert (Hx0 : 0 <= x) by (apply Qmult_le_0_compat; assumption).
  assert (Hx1 : x <= inject_Z (Z.of_nat (M * N))).
  { unfold x. rewrite <- (Qmult_1_r (inject_Z (Z.of_nat (M * N)))) at 2.
    apply Qmult_le_nonneg_l; assumption. }
  split.
  - apply count_le_inject_Z; [lia | exact Hx0 | exact Hx1].
  - apply count_floor; [exact Hx0 |].
    apply Qle_trans with (inject_Z (Z.of_nat (M * N))); [exact Hx1 |].
    rewrite <- Zle_Qle. exact Hsize.
Qed.

(** C3 (amended).  For a well-formed image and dark channel of [M * N]
    pixels and [floor(M * N * p) >= 1], let [k = int(M * N * p)] be the
    truncation of the binary64 product.  Then [k >= 1] and [get_atmosphere]
    selects [min(k, M * N)] distinct positions; for [p <= 1] and at most
    [2 ^ 53] pixels these are exactly [k] positions and [k] is
    [floor(M * N * p)] or [floor(M * N * p) + 1].  No position left out
    has a higher dark-channel value than a selected one, the result is the
    maximum of each channel over the image pixels at the selected
    positions, and every component of the atmosphere light that
    [dehaze_raw] returns is at most [atm_max]. *)
Theorem atmosphere_top_fraction (I : image) (dark : grid Q) (M N : nat)
        (p atm_max : Q) :
  rect M N I -> rect M N dark -> (1 <= M)%nat -> (1 <= N)%nat ->
  (1 <= Qfloor (inject_Z (Z.of_nat (M * N)) * p))%Z ->
  let x := inject_Z (Z.of_nat (M * N)) * p in
  let k := Z.to_nat (selection_count M N p) in
  let idx := search_idx dark p in
  let flat_dark := ravel dark in
  let flat_I := ravel I in
  (1 <= k)%nat /\
  length idx = Nat.min k (M * N) /\
  (p <= 1 -> (Z.of_nat (M * N) <= 2 ^ 53)%Z ->
   length idx = k /\
   (Qfloor x <= selection_count M N p <= Qfloor x + 1)%Z) /\
  NoDup idx /\
  (forall i, In i idx -> (i < M * N)%nat) /\
  (forall i j, In i idx -> (j < M * N)%nat -> ~ In j idx ->
               nth j flat_dark 0 <= nth i flat_dark 0) /\
  (exists A,
      get_atmosphere I dark p = Ok A /\
      is_max (chR A) (map (fun i => chR (nth i flat_I (0, 0, 0))) idx) /\
      is_max (chG A) (map (fun i => chG (nth i flat_I (0, 0, 0))) idx) /\
      is_max (chB A) (map (fun i => chB (nth i flat_I (0, 0, 0))) idx)) /\
  (forall gf t_min w omega guided r eps Idark A rawt refinedt,
      dehaze_raw gf I t_min atm_max w p omega guided r eps
      = Ok (Idark, A, rawt, refinedt) ->
      (exists A0, get_atmosphere I Idark p = Ok A0 /\
                  A = np_minimum A0 atm_max) /\
      chR A <= atm_max /\ chG A <= atm_max /\ chB A <= atm_max).
Proof.
  intros HI Hd HM HN Hk x k idx flat_dark flat_I.
  pose proof (selection_count_ge_1 M N p Hk) as Hk1.
  destruct (atmosphere_selection I dark M N p HI Hd HM HN Hk1)
    as (Hcount & Hnodup & Hrange & Htop & Hmax).
  split; [unfold k; lia |].
  split; [exact Hcount |].
  split.
  { intros Hp1 Hsize.
    assert (Hp0 : 0 <= p).
    { destruct (Qlt_le_dec p 0) as [Hneg | Hnn]; [| exact Hnn].
      exfalso.
      assert (Hx : x <= 0).
      { unfold x. rewrite <- (Qmult_0_r (inject_Z (Z.of_nat (M * N)))).
        apply Qmult_le_nonneg_l; [| apply Qlt_le_weak, Hneg].
        change 0 with (inject_Z 0). rewrite <- Zle_Qle. lia. }
      apply Qfloor_resp_le in Hx. change (Qfloor 0) with 0%Z in Hx.
      fold x in Hk. lia. }
    destruct (selection_count_fraction M N p Hsize Hp0 Hp1) as [Hle Hfl].
    split; [| exact Hfl].
    fold idx in Hcount. rewrite Hcount. unfold k. lia. }
  repeat (split; [assumption |]).
  intros gf t_min w omega guided r eps Idark A rawt refinedt Hrun.
  apply dehaze_raw_Ok in Hrun as (A0 & raw0 & _ & HA0 & -> & _).
  split; [exists A0; split; [exact HA0 | reflexivity] |].
  apply np_minimum_le.
Qed.

Lemma atmosphere_top_fraction_witness :
  let x := inject_Z (Z.of_nat (2 * 3)) * 0.5 in
  let k := Z.to_nat (selection_count 2 3 0.5) in
  let idx := search_idx sample_dark 0.5 in
  let flat_dark := ravel sample_dark in
  let flat_I := ravel sample_image in
  (1 <= k)%nat /\
  length idx = Nat.min k (2 * 3) /\
  (0.5 <= 1 -> (Z.of_nat (2 * 3) <= 2 ^ 53)%Z ->
   length idx = k /\
   (Qfloor x <= selection_count 2 3 0.5 <= Qfloor x + 1)%Z) /\
  NoDup idx /\
  (forall i, In i idx -> (i < 2 * 3)%nat) /\
  (forall i j, In i idx -> (j < 2 * 3)%nat -> ~ In j idx ->
               nth j flat_dark 0 <= nth i flat_dark 0) /\
  (exists A,
      get_atmosphere sample_image sample_dark 0.5 = Ok A /\
      is_max (chR A) (map (fun i => chR (nth i flat_I (0, 0, 0))) idx) /\
      is_max (chG A) (map (fun i => chG (nth i flat_I (0, 0, 0))) idx) /\
      is_max (chB A) (map (fun i => chB (nth i flat_I (0, 0, 0))) idx)) /\
  (forall gf t_min w omega guided r eps Idark A rawt refinedt,
      dehaze_raw gf sample_image t_min 220 w 0.5 omega guided r eps
      = Ok (Idark, A, rawt, refinedt) ->
      (exists A0, get_atmosphere sample_image Idark 0.5 = Ok A0 /\
                  A = np_minimum A0 220) /\
      chR A <= 220 /\ chG A <= 220 /\ chB A <= 220).
Proof.
  apply (atmosphere_top_fraction sample_image sample_dark 2 3 0.5 220).
  - split; [reflexivity | repeat constructor].
  - split; [reflexivity | repeat constructor].
  - lia.
  - lia.
  - vm_compute. discriminate.
Defined.

(** C3 as stated fails where the product rounds up to an integer: with
    [p] the binary64 number nearest to 1/3 on a 2 x 3 image, [M * N * p]
    lies below 2 and its floor is 1, the binary64 product is 2.0, and two
    positions are selected, not one. *)
Lemma selection_count_rounds_up :
  third <= 1 /\
  inject_Z (Z.of_nat (2 * 3)) * third < 2 /\
  Qfloor (inject_Z (Z.of_nat (2 * 3)) * third) = 1%Z /\
  float_mul (inject_Z (Z.of_nat (2 * 3))) third == 2 /\
  selection_count 2 3 third = 2%Z /\
  length (search_idx sample_dark third) = 2%nat /\
  length (search_idx sample_dark third)
  <> Z.to_nat (Qfloor (inject_Z (Z.of_nat (2 * 3)) * third)).
Proof.
  split; [vm_compute; discriminate |].
  split; [reflexivity |].
  split; [reflexivity |].
  split; [reflexivity |].
  split; [reflexivity |].
  split; [reflexivity | vm_compute; discriminate].
Qed.

Lemma get_atmosphere_no_selection (I : image) (dark : grid Q) (p : Q) :
  selection_count (fst (shape dark)) (snd (shape dark)) p = 0%Z ->
  search_idx dark p = [] /\
  get_atmosphere I dark p = Raises ValueError.
Proof.
  intros Hk.
  assert (Hidx : search_idx dark p = []).
  { unfold search_idx. destruct (shape dark) as [M N].
    unfold selection_count in Hk. simpl in Hk.
    rewrite Hk. reflexivity. }
  split; [exact Hidx |].
  unfold get_atmosphere. rewrite Hidx.
  destruct (shape dark) as [M N].
  destruct (Nat.eqb (length (ravel I)) (M * N)); reflexivity.
Qed.

(** C4 (amended).  When [int(M * N * p)], the truncation of the binary64
    product, is 0, no position is selected and [get_atmosphere] fails:
    numpy raises [ValueError] (the reduction of an empty array has no
    identity), the only exception there is, and no atmosphere light is
    returned.  The truncation is 0 whenever
    [0 <= M * N * p <= 1 - 2 ^ (-53)], the largest binary64 number
    below 1. *)
Theorem get_atmosphere_empty_selection (I : image) (dark : grid Q) (p : Q) :
  let M := fst (shape dark) in
  let N := snd (shape dark) in
  (selection_count M N p = 0%Z ->
   search_idx dark p = [] /\
   get_atmosphere I dark p = Raises ValueError) /\
  (0 <= inject_Z (Z.of_nat (M * N)) * p ->
   inject_Z (Z.of_nat (M * N)) * p <= 1 - 2 ^ (-53) ->
   selection_count M N p = 0%Z).
Proof.
  intros M N. split.
  - apply get_atmosphere_no_selection.
  - intros H0 H1. apply count_zero; assumption.
Qed.

Lemma get_atmosphere_empty_selection_witness :
  selection_count 2 3 0.125 = 0%Z /\
  search_idx sample_dark 0.125 = [] /\
  get_atmosphere sample_image sample_dark 0.125 = Raises ValueError.
Proof.
  destruct (get_atmosphere_empty_selection sample_image sample_dark 0.125)
    as [Hfail Hzero].
  assert (Hk : selection_count 2 3 0.125 = 0%Z).
  { apply Hzero; vm_compute; discriminate. }
  split; [exact Hk |].
  apply Hfail. exact Hk.
Defined.

(** C4 as stated fails where the product rounds up to one: with [p] the
    binary64 number nearest to 1/6 on a 2 x 3 image, [M * N * p] lies
    below 1 and its floor is 0, the binary64 product is 1.0, one position
    is selected and [get_atmosphere] returns a light. *)
Lemma product_rounds_up_to_one :
  0 <= inject_Z (Z.of_nat (2 * 3)) * sixth /\
  inject_Z (Z.of_nat (2 * 3)) * sixth < 1 /\
  Qfloor (inject_Z (Z.of_nat (2 * 3)) * sixth) = 0%Z /\
  float_mul (inject_Z (Z.of_nat (2 * 3))) sixth == 1 /\
  selection_count 2 3 sixth = 1%Z /\
  length (search_idx sample_dark sixth) = 1%nat /\
  exists A, get_atmosphere sample_image sample_dark sixth = Ok A.
Proof.
  split; [vm_compute; discriminate |].
  split; [reflexivity |].
  split; [reflexivity |].
  split; [reflexivity |].
  split; [reflexivity |].
  split; [reflexivity |].
  eexists. vm_compute. reflexivity.
Qed.

(** ** Transmission *)

Lemma rect_grid_map {A B} (f : A -> B) (M N : nat) (g : grid A) :
  rect M N g -> rect M N (grid_map f g).
Proof.
  intros [Hlen Hrows]. split.
  - unfold grid_map. rewrite length_map. exact Hlen.
  - apply Forall_map. eapply Forall_impl; [| exact Hrows].
    intros row Hrow. simpl. rewrite length_map. exact Hrow.
Qed.

Lemma div_light_nonzero (I : image) (A : pixel) :
  ~ chR A == 0 -> ~ chG A == 0 -> ~ chB A == 0 ->
  div_light I A = Ok (grid_map (fun x => pixel_map2 Qdiv x A) I).
Proof.
  intros HR HG HB. unfold div_light. simpl.
  destruct (Qeq_bool (chR A) 0) eqn:ER;
    [apply Qeq_bool_iff in ER; contradiction |].
  destruct (Qeq_bool (chG A) 0) eqn:EG;
    [apply Qeq_bool_iff in EG; contradiction |].
  destruct (Qeq_bool (chB A) 0) eqn:EB;
    [apply Qeq_bool_iff in EB; contradiction |].
  reflexivity.
Qed.

Lemma get_transmission_total (I : image) (M N : nat) (A : pixel)
      (omega : Q) (w : Z) :
  rect M N I -> (1 <= M)%nat -> (1 <= N)%nat -> (1 <= w)%Z ->
  ~ chR A == 0 -> ~ chG A == 0 -> ~ chB A == 0 ->
  exists dark,
    get_dark_channel (grid_map (fun x => pixel_map2 Qdiv x A) I) w = Ok dark /\
    rect M N dark /\
    get_transmission I A omega w = Ok (grid_map (fun d => 1 - omega * d) dark).
Proof.
  intros HI HM HN Hw HR HG HB.
  destruct (get_dark_channel_total
              (grid_map (fun x => pixel_map2 Qdiv x A) I) M N w)
    as (dark & Hd & Hrect); try assumption.
  { apply rect_grid_map. exact HI. }
  exists dark. split; [exact Hd |]. split; [exact Hrect |].
  unfold get_transmission. rewrite div_light_nonzero by assumption.
  simpl. rewrite Hd. reflexivity.
Qed.

(** C5 (amended).  [get_transmission] makes no check on the atmosphere
    light: whenever no component is zero, whatever its sign, [I / A] is
    computed and [1 - omega * darkChannel(I / A)] is returned. *)
Theorem get_transmission_any_sign (I : image) (M N : nat) (A : pixel)
        (omega : Q) (w : Z) :
  rect M N I -> (1 <= M)%nat -> (1 <= N)%nat -> (1 <= w)%Z ->
  ~ chR A == 0 -> ~ chG A == 0 -> ~ chB A == 0 ->
  exists dark,
    get_dark_channel (grid_map (fun x => pixel_map2 Qdiv x A) I) w = Ok dark /\
    rect M N dark /\
    get_transmission I A omega w = Ok (grid_map (fun d => 1 - omega * d) dark).
Proof. apply get_transmission_total. Qed.

Lemma get_transmission_any_sign_witness :
  exists dark,
    get_dark_channel
      (grid_map (fun x => pixel_map2 Qdiv x (-50, 100, 100)) sample_image) 3
    = Ok dark /\
    rect 2 3 dark /\
    get_transmission sample_image (-50, 100, 100) 0.95 3
    = Ok (grid_map (fun d => 1 - 0.95 * d) dark).
Proof.
  apply (get_transmission_any_sign sample_image 2 3 (-50, 100, 100) 0.95 3).
  - split; [reflexivity | repeat constructor].
  - lia.
  - lia.
  - lia.
  - vm_compute. discriminate.
  - vm_compute. discriminate.
  - vm_compute. discriminate.
Defined.

(** C5 as stated fails: with a negative component in the atmosphere light
    the division is carried out and a transmission map is returned, by
    [get_transmission] and by the whole of [dehaze_raw] (here with
    [atm_max = -1], so that the clamped light is (-1, -1, -1)). *)
Lemma negative_light_is_divided_by :
  chR (-50, 100, 100) <= 0 /\
  get_transmission sample_image (-50, 100, 100) 0.95 3
  = Ok [[5855 # 5000; 5855 # 5000; 5475 # 5000];
        [5855 # 5000; 5855 # 5000; 5475 # 5000]] /\
  dehaze_raw (fun _ t _ _ => Ok t) sample_image 0.2 (-1) 3 0.5 0.95 false
             40 0.001
  = Ok (full 2 3 2, (-1, -1, -1), full 2 3 12.40, full 2 3 12.40).
Proof.
  split; [vm_compute; discriminate |].
  split; vm_compute; reflexivity.
Qed.

(** ** The refined map without the guided filter *)

Lemma Forall2_grid_map {A B} (f : A -> B) (g : grid A) :
  Forall2 (Forall2 (fun y x => y = f x)) (grid_map f g) g.
Proof.
  induction g as [| row g IH]; simpl; constructor; [| exact IH].
  induction row as [| x row IHrow]; simpl; constructor;
    [reflexivity | exact IHrow].
Qed.

Lemma Forall_grid_map {A B} (P : B -> Prop) (f : A -> B) (g : grid A) :
  (forall x, P (f x)) -> Forall (Forall P) (grid_map f g).
Proof.
  intros H. apply Forall_map, Forall_forall. intros row _.
  apply Forall_map, Forall_forall. intros x _. apply H.
Qed.

Lemma np_maximum_ge (t_min : Q) (raw : grid Q) :
  Forall (Forall (fun t => t_min <= t)) (np_maximum raw t_min).
Proof. apply Forall_grid_map. intros x. apply Q.le_max_r. Qed.

(** C7.  With [guided = false], whatever transmission estimate [raw] the
    estimation stage returns and whatever [t_min] is, [dehaze_raw] returns
    a refined map that is [max(raw, t_min)] cell by cell. *)
Theorem refined_unguided_is_floor gf I t_min atm_max w p omega r eps
        Idark A0 raw :
  get_dark_channel I w = Ok Idark ->
  get_atmosphere I Idark p = Ok A0 ->
  get_transmission I (np_minimum A0 atm_max) omega w = Ok raw ->
  exists rawt refinedt,
    dehaze_raw gf I t_min atm_max w p omega false r eps
    = Ok (Idark, np_minimum A0 atm_max, rawt, refinedt) /\
    Forall2 (Forall2 (fun t x => t = Qmax x t_min)) refinedt raw.
Proof.
  intros Hd HA Ht.
  exists (np_maximum raw t_min), (np_maximum raw t_min).
  split.
  - apply dehaze_raw_unguided; assumption.
  - apply Forall2_grid_map.
Qed.

Lemma refined_unguided_is_floor_witness :
  exists rawt refinedt,
    dehaze_raw (fun _ t _ _ => Ok t) sample_image 0.5 220 1 0.5 0.95 false
               40 0.001
    = Ok (sample_dark, np_minimum (9, 8, 9) 220, rawt, refinedt) /\
    Forall2 (Forall2 (fun t x => t = Qmax x 0.5)) refinedt
            [[235 # 900; 520 # 900; 615 # 900];
             [235 # 900; 710 # 900; 425 # 900]].
Proof.
  apply (refined_unguided_is_floor (fun _ t _ _ => Ok t) sample_image 0.5 220
                                   1 0.5 0.95 40 0.001).
  - vm_compute. reflexivity.
  - vm_compute. reflexivity.
  - vm_compute. reflexivity.
Defined.

(** ** The outputs of [dehaze] without the guided filter *)

(** C10.  With [guided = false], the "raw" map that [dehaze_raw] returns is
    the floored map [max(raw, t_min)], [raw] being the transmission
    estimate, and it is also the refined map; the two radiance pictures
    (and the two transmission pictures) that [dehaze] returns are the
    same. *)
Theorem unguided_outputs_coincide gf img t_min atm_max w p omega r eps :
  (forall Idark A rawt refinedt,
      dehaze_raw gf (asarray img) t_min atm_max w p omega false r eps
      = Ok (Idark, A, rawt, refinedt) ->
      refinedt = rawt /\
      exists raw,
        get_transmission (asarray img) A omega w = Ok raw /\
        Forall2 (Forall2 (fun t x => t = Qmax x t_min)) rawt raw) /\
  (forall pics,
      dehaze gf img t_min atm_max w p omega false r eps = Ok pics ->
      exists dark trans radiance,
        pics = [dark; trans; trans; radiance; radiance]).
Proof.
  split.
  - intros Idark A rawt refinedt Hrun.
    apply dehaze_raw_Ok in Hrun as (A0 & raw0 & _ & _ & _ & Ht & -> & ->).
    split; [reflexivity |].
    exists raw0. split; [exact Ht | apply Forall2_grid_map].
  - intros pics Hrun. unfold dehaze in Hrun.
    apply bind_Ok in Hrun as ([[[Idark A] rawt] refinedt] & Hraw & Hrun).
    apply dehaze_raw_Ok in Hraw as (A0 & raw0 & _ & _ & _ & _ & _ & ->).
    apply bind_Ok in Hrun as (rad1 & H1 & Hrun).
    apply bind_Ok in Hrun as (rad2 & H2 & Hrun).
    rewrite H1 in H2. injection H2 as <-. injection Hrun as <-.
    do 3 eexists. reflexivity.
Qed.

Lemma unguided_outputs_coincide_witness :
  (forall Idark A rawt refinedt,
      dehaze_raw (fun _ t _ _ => Ok t) (asarray gradient_picture)
                 0.2 220 1 0.5 0.95 false 40 0.001
      = Ok (Idark, A, rawt, refinedt) ->
      refinedt = rawt /\
      exists raw,
        get_transmission (asarray gradient_picture) A 0.95 1 = Ok raw /\
        Forall2 (Forall2 (fun t x => t = Qmax x 0.2)) rawt raw) /\
  (exists dark trans radiance,
      dehaze (fun _ t _ _ => Ok t) gradient_picture
             0.2 220 1 0.5 0.95 false 40 0.001
      = Ok [dark; trans; trans; radiance; radiance]).
Proof.
  pose proof (unguided_outputs_coincide (fun _ t _ _ => Ok t) gradient_picture
                                        0.2 220 1 0.5 0.95 40 0.001)
    as [Hraw Hpics].
  split; [exact Hraw |].
  assert (Hrun : exists pics,
             dehaze (fun _ t _ _ => Ok t) gradient_picture
                    0.2 220 1 0.5 0.95 false 40 0.001 = Ok pics)
    by (vm_compute; eexists; reflexivity).
  destruct Hrun as [pics Hrun].
  destruct (Hpics pics Hrun) as (dark & trans & radiance & E).
  exists dark, trans, radiance. rewrite <- E. exact Hrun.
Defined.

(** ** Every dark-channel value is a value of the image *)

Lemma In_firstn {A} (n : nat) (l : list A) (x : A) :
  In x (firstn n l) -> In x l.
Proof.
  intros H. rewrite <- (firstn_skipn n l). apply in_or_app. left. exact H.
Qed.

Lemma In_skipn {A} (n : nat) (l : list A) (x : A) :
  In x (skipn n l) -> In x l.
Proof.
  intros H. rewrite <- (firstn_skipn n l). apply in_or_app. right. exact H.
Qed.

Lemma In_last {A} (l : list A) (d : A) : l <> [] -> In (last l d) l.
Proof.
  induction l as [| x t IH]; intros Hne; [congruence |].
  destruct t as [| y t'].
  - left. reflexivity.
  - right. apply IH. discriminate.
Qed.

Lemma In_pad_edge {A} (n : nat) (l : list A) (x : A) :
  In x (pad_edge n l) -> In x l.
Proof.
  destruct l as [| y t]; [intros [] |].
  unfold pad_edge. intros H.
  apply in_app_or in H as [H | H].
  - apply repeat_spec in H. subst. left. reflexivity.
  - apply in_app_or in H as [H | H]; [exact H |].
    apply repeat_spec in H. subst. apply In_last. discriminate.
Qed.

Lemma Forall2_In_r {A B} (R : A -> B -> Prop) (l : list A) (l' : list B) y :
  Forall2 R l l' -> In y l' -> exists x, In x l /\ R x y.
Proof.
  induction 1 as [| x y' l l' Hxy _ IH]; intros Hy; [destruct Hy |].
  destruct Hy as [<- | Hy].
  - exists x. split; [left; reflexivity | exact Hxy].
  - destruct (IH Hy) as (x' & Hx' & HR). exists x'. split; [right |]; assumption.
Qed.

Lemma window_values (padded : image) (w i j : nat) (v : Q) :
  In v (window padded w i j) ->
  exists row x, In row padded /\ In x row /\ In v (channels x).
Proof.
  unfold window. intros H.
  apply in_flat_map in H as (x & Hx & Hv).
  apply in_concat in Hx as (sl & Hsl & Hx).
  apply in_map_iff in Hsl as (row & <- & Hrow).
  exists row, x. repeat split.
  - eapply In_skipn, In_firstn, Hrow.
  - eapply In_skipn, In_firstn, Hx.
  - exact Hv.
Qed.

Lemma get_dark_channel_values (I : image) (w : Z) (dark : grid Q) :
  get_dark_channel I w = Ok dark ->
  forall row d, In row dark -> In d row ->
  exists irow x, In irow I /\ In x irow /\ In d (channels x).
Proof.
  unfold get_dark_channel. destruct (shape I) as [M N].
  intros H row d Hrow Hd.
  apply bind_Ok in H as (padded & Hpad & H).
  unfold np_pad_edge in Hpad.
  destruct (w / 2 <? 0)%Z; [discriminate |]. injection Hpad as <-.
  apply mapM_Ok_inv in H.
  destruct (Forall2_In_r _ _ _ _ H Hrow) as (i & _ & Hi).
  apply mapM_Ok_inv in Hi.
  destruct (Forall2_In_r _ _ _ _ Hi Hd) as (j & _ & Hj).
  unfold np_min in Hj.
  destruct (window _ _ i j) as [| v t] eqn:Ewin; [discriminate |].
  injection Hj as <-.
  assert (Hin : In (fold_left Qmin t v) (window
            (pad_edge (Z.to_nat (w / 2)) (map (pad_edge (Z.to_nat (w / 2))) I))
            (Z.to_nat w) i j)).
  { rewrite Ewin. apply fold_left_Qmin_spec. }
  apply window_values in Hin as (prow & x & Hprow & Hx & Hv).
  apply In_pad_edge in Hprow.
  apply in_map_iff in Hprow as (irow & <- & Hirow).
  apply In_pad_edge in Hx.
  exists irow, x. repeat split; assumption.
Qed.

(** ** Monotonicity in [omega] *)

Lemma get_transmission_Ok (I : image) (A : pixel) (omega : Q) (w : Z) t :
  get_transmission I A omega w = Ok t ->
  exists dark,
    get_dark_channel (grid_map (fun x => pixel_map2 Qdiv x A) I) w = Ok dark /\
    t = grid_map (fun d => 1 - omega * d) dark.
Proof.
  unfold get_transmission. intros H.
  apply bind_Ok in H as (IA & HIA & H).
  apply bind_Ok in H as (dark & Hd & H).
  injection H as <-.
  unfold div_light in HIA.
  destruct (existsb _ _); [discriminate |]. injection HIA as <-.
  exists dark. split; [exact Hd | reflexivity].
Qed.

Lemma Forall2_grid_map2 {A B} (R : B -> B -> Prop) (f g : A -> B) (h : grid A) :
  (forall row x, In row h -> In x row -> R (f x) (g x)) ->
  Forall2 (Forall2 R) (grid_map f h) (grid_map g h).
Proof.
  induction h as [| row h IH]; intros H; simpl; constructor.
  - assert (Hrow : forall x, In x row -> R (f x) (g x))
      by (intros x Hx; apply (H row); [left; reflexivity | exact Hx]).
    clear H IH. induction row as [| x row IHrow]; simpl; constructor.
    + apply Hrow. left. reflexivity.
    + apply IHrow. intros y Hy. apply Hrow. right. exact Hy.
  - apply IH. intros row' x Hrow' Hx. apply (H row'); [right |]; assumption.
Qed.

Lemma div_nonneg (x a : Q) : 0 <= x -> 0 < a -> 0 <= x / a.
Proof.
  intros Hx Ha. apply Qle_shift_div_l; [exact Ha |]. lra.
Qed.

(** C8.  For an image with nonnegative entries, an atmosphere light with
    positive components and [0 <= omega1 <= omega2 <= 1], the transmission
    estimate for [omega2] is at most the one for [omega1] in every cell;
    both estimates exist for a well-formed image and [w >= 1]. *)
Theorem transmission_antitone_in_omega (I : image) (A : pixel) (w : Z)
        (omega1 omega2 : Q) :
  nonneg_image I ->
  0 < chR A -> 0 < chG A -> 0 < chB A ->
  0 <= omega1 -> omega1 <= omega2 -> omega2 <= 1 ->
  (forall t1 t2,
      get_transmission I A omega1 w = Ok t1 ->
      get_transmission I A omega2 w = Ok t2 ->
      Forall2 (Forall2 Qle) t2 t1) /\
  (forall M N,
      rect M N I -> (1 <= M)%nat -> (1 <= N)%nat -> (1 <= w)%Z ->
      exists t1 t2,
        get_transmission I A omega1 w = Ok t1 /\
        get_transmission I A omega2 w = Ok t2 /\
        rect M N t1 /\ rect M N t2).
Proof.
  intros HI HR HG HB H0 H12 H1. split.
  - intros t1 t2 Ht1 Ht2.
    apply get_transmission_Ok in Ht1 as (dark & Hd & ->).
    apply get_transmission_Ok in Ht2 as (dark' & Hd' & ->).
    rewrite Hd in Hd'. injection Hd' as <-.
    apply Forall2_grid_map2. intros row d Hrow Hdin.
    destruct (get_dark_channel_values _ _ _ Hd row d Hrow Hdin)
      as (irow & x & Hirow & Hx & Hv).
    assert (Hd0 : 0 <= d).
    { apply in_map_iff in Hirow as (row0 & <- & Hrow0).
      apply in_map_iff in Hx as (x0 & <- & Hx0).
      unfold nonneg_image in HI. rewrite Forall_forall in HI.
      pose proof (HI row0 Hrow0) as Hr0. rewrite Forall_forall in Hr0.
      destruct (Hr0 x0 Hx0) as (HxR & HxG & HxB).
      destruct Hv as [<- | [<- | [<- | []]]]; apply div_nonneg; assumption. }
    assert (omega1 * d <= omega2 * d)
      by (apply Qmult_le_compat_r; assumption).
    lra.
  - intros M N Hrect HM HN Hw.
    assert (HnR : ~ chR A == 0) by (intros E; rewrite E in HR; lra).
    assert (HnG : ~ chG A == 0) by (intros E; rewrite E in HG; lra).
    assert (HnB : ~ chB A == 0) by (intros E; rewrite E in HB; lra).
    destruct (get_dark_channel_total
                (grid_map (fun x => pixel_map2 Qdiv x A) I) M N w)
      as (dark & Hd & Hdrect); try assumption.
    { apply rect_grid_map. exact Hrect. }
    exists (grid_map (fun d => 1 - omega1 * d) dark),
           (grid_map (fun d => 1 - omega2 * d) dark).
    unfold get_transmission. rewrite div_light_nonzero by assumption.
    simpl. rewrite Hd. simpl.
    split; [reflexivity |]. split; [reflexivity |].
    split; apply rect_grid_map; exact Hdrect.
Qed.

Lemma transmission_antitone_in_omega_witness :
  (forall t1 t2,
      get_transmission sample_image (9, 8, 9) 0.5 3 = Ok t1 ->
      get_transmission sample_image (9, 8, 9) 0.95 3 = Ok t2 ->
      Forall2 (Forall2 Qle) t2 t1) /\
  (forall M N,
      rect M N sample_image -> (1 <= M)%nat -> (1 <= N)%nat -> (1 <= 3)%Z ->
      exists t1 t2,
        get_transmission sample_image (9, 8, 9) 0.5 3 = Ok t1 /\
        get_transmission sample_image (9, 8, 9) 0.95 3 = Ok t2 /\
        rect M N t1 /\ rect M N t2).
Proof.
  apply (transmission_antitone_in_omega sample_image (9, 8, 9) 3 0.5 0.95).
  - unfold nonneg_image, sample_image.
    repeat constructor; vm_compute; discriminate.
  - reflexivity.
  - reflexivity.
  - reflexivity.
  - vm_compute. discriminate.
  - vm_compute. discriminate.
  - vm_compute. discriminate.
Defined.

(** ** Parameters are not validated *)

Lemma asarray_positive (img : grid (Z * Z * Z)) :
  positive_picture img -> positive_image (asarray img).
Proof.
  intros H. apply Forall_map. eapply Forall_impl; [| exact H].
  intros row Hrow. apply Forall_map. eapply Forall_impl; [| exact Hrow].
  intros [[r g] b] (Hr & Hg & Hb). simpl in *.
  unfold chR, chG, chB; simpl.
  repeat split; unfold Qlt; simpl; lia.
Qed.

Lemma In_ravel_nth {A} (M N : nat) (g : grid A) (i : nat) (d : A) :
  rect M N g -> (i < M * N)%nat ->
  exists row, In row g /\ In (nth i (ravel g) d) row.
Proof.
  intros Hg Hi.
  assert (Hin : In (nth i (ravel g) d) (ravel g)).
  { apply nth_In. rewrite (length_ravel M N g Hg). exact Hi. }
  unfold ravel in Hin. apply in_concat in Hin as (row & Hrow & Hx).
  exists row. split; assumption.
Qed.

(** [w <= 0]: numpy raises in the dark-channel stage. *)
Lemma get_dark_channel_bad_window (I : image) (M N : nat) (w : Z) :
  rect M N I -> (1 <= M)%nat -> (1 <= N)%nat -> (w <= 0)%Z ->
  get_dark_channel I w = Raises ValueError.
Proof.
  intros HI HM HN Hw. unfold get_dark_channel.
  rewrite (shape_rect M N I HI HM). unfold np_pad_edge.
  destruct (w / 2 <? 0)%Z eqn:E; [reflexivity |].
  apply Z.ltb_ge in E.
  assert (w = 0)%Z.
  { destruct (Z.eq_dec w 0) as [| Hne]; [assumption |].
    assert (w / 2 < 0)%Z by (apply Z.div_lt_upper_bound; lia). lia. }
  subst w. simpl bind.
  destruct M as [| M']; [lia |]. destruct N as [| N']; [lia |].
  rewrite <- !cons_seq.
  apply mapM_Raises_hd. apply mapM_Raises_hd. reflexivity.
Qed.

Lemma np_minimum_nonzero (atm_max : Q) (A0 : pixel) :
  0 < chR A0 -> 0 < chG A0 -> 0 < chB A0 -> ~ atm_max == 0 ->
  ~ chR (np_minimum A0 atm_max) == 0 /\
  ~ chG (np_minimum A0 atm_max) == 0 /\
  ~ chB (np_minimum A0 atm_max) == 0.
Proof.
  intros HR HG HB Hm.
  assert (Hmin : forall a, 0 < a -> ~ Qmin a atm_max == 0).
  { intros a Ha E.
    destruct (Q.min_spec a atm_max) as [[_ E'] | [_ E']];
      rewrite E' in E; [rewrite E in Ha; lra | contradiction]. }
  unfold np_minimum, pixel_map, chR, chG, chB; simpl.
  repeat split; apply Hmin; assumption.
Qed.

Lemma broadcast_to_same {A} (n : nat) (l : list A) :
  length l = n -> broadcast_to n l = Ok l.
Proof.
  intros H. unfold broadcast_to. rewrite H, Nat.eqb_refl. reflexivity.
Qed.

Lemma tile_rect (M N : nat) (I : image) (t : grid Q) :
  rect M N I -> rect M N t -> (1 <= M)%nat -> tile I t = Ok t.
Proof.
  intros HI [Ht Htr] HM. unfold tile. rewrite (shape_rect M N I HI HM).
  rewrite (broadcast_to_same M t Ht). simpl bind.
  rewrite <- (map_id t) at 2. apply mapM_Ok_map.
  intros row Hrow. rewrite Forall_forall in Htr.
  apply broadcast_to_same, Htr, Hrow.
Qed.

Lemma get_radiance_total (I : image) (M N : nat) (A : pixel) (t : grid Q)
      (t_min : Q) :
  rect M N I -> rect M N t -> (1 <= M)%nat -> 0 < t_min ->
  Forall (Forall (fun x => t_min <= x)) t ->
  exists J, get_radiance I A t = Ok J.
Proof.
  intros HI Ht HM Hpos Hge. unfold get_radiance.
  rewrite (tile_rect M N I t HI Ht HM). simpl bind.
  replace (existsb (fun x => Qeq_bool x 0) (ravel t)) with false.
  - eexists. reflexivity.
  - symmetry. apply not_true_is_false. intros E.
    apply existsb_exists in E as (x & Hx & E).
    apply Qeq_bool_iff in E.
    unfold ravel in Hx. apply in_concat in Hx as (row & Hrow & Hx).
    rewrite Forall_forall in Hge. pose proof (Hge row Hrow) as Hr.
    rewrite Forall_forall in Hr. pose proof (Hr x Hx) as Hxge.
    rewrite E in Hxge. lra.
Qed.

Lemma get_atmosphere_positive (I : image) (dark : grid Q) (M N : nat) (p : Q) :
  rect M N I -> rect M N dark -> (1 <= M)%nat -> (1 <= N)%nat ->
  (1 <= Qfloor (inject_Z (Z.of_nat (M * N)) * p))%Z ->
  positive_image I ->
  exists A0, get_atmosphere I dark p = Ok A0 /\
             0 < chR A0 /\ 0 < chG A0 /\ 0 < chB A0.
Proof.
  intros HI Hd HM HN Hk Hpos.
  destruct (atmosphere_selection I dark M N p HI Hd HM HN
              (selection_count_ge_1 M N p Hk))
    as (_ & _ & Hrange & _ & A0 & HA0 & [HR _] & [HG _] & [HB _]).
  assert (Hpix : forall i, In i (search_idx dark p) ->
                 0 < chR (nth i (ravel I) (0, 0, 0)) /\
                 0 < chG (nth i (ravel I) (0, 0, 0)) /\
                 0 < chB (nth i (ravel I) (0, 0, 0))).
  { intros i Hi.
    destruct (In_ravel_nth M N I i (0, 0, 0) HI (Hrange i Hi))
      as (row & Hrow & Hx).
    unfold positive_image in Hpos. rewrite Forall_forall in Hpos.
    pose proof (Hpos row Hrow) as Hr. rewrite Forall_forall in Hr.
    apply Hr, Hx. }
  exists A0. split; [exact HA0 |].
  apply in_map_iff in HR as (i & <- & Hi).
  apply in_map_iff in HG as (j & <- & Hj).
  apply in_map_iff in HB as (l & <- & Hl).
  repeat split; [apply (Hpix i Hi) | apply (Hpix j Hj) | apply (Hpix l Hl)].
Qed.

(** Without the guided filter, a run on a picture with positive values
    returns for any positive floor and any nonzero bound on the light. *)
Lemma dehaze_unguided_total gf (img : grid (Z * Z * Z)) (M N : nat)
      (t_min atm_max : Q) (w : Z) (p omega : Q) (r : Z) (eps : Q) :
  rect M N img -> (1 <= M)%nat -> (1 <= N)%nat -> positive_picture img ->
  (1 <= w)%Z ->
  (1 <= Qfloor (inject_Z (Z.of_nat (M * N)) * p))%Z ->
  ~ atm_max == 0 -> 0 < t_min ->
  exists dark trans radiance,
    dehaze gf img t_min atm_max w p omega false r eps
    = Ok [dark; trans; trans; radiance; radiance].
Proof.
  intros Himg HM HN Hpos Hw Hk Hmax Htmin.
  assert (HI : rect M N (asarray img)) by (apply rect_grid_map; exact Himg).
  destruct (get_dark_channel_total (asarray img) M N w HI HM HN Hw)
    as (Idark & Hdark & Hdrect).
  destruct (get_atmosphere_positive (asarray img) Idark M N p HI Hdrect HM HN Hk
                                    (asarray_positive img Hpos))
    as (A0 & HA0 & HR & HG & HB).
  destruct (np_minimum_nonzero atm_max A0 HR HG HB Hmax) as (HnR & HnG & HnB).
  destruct (get_transmission_total (asarray img) M N (np_minimum A0 atm_max)
                                   omega w HI HM HN Hw HnR HnG HnB)
    as (d & _ & Hd & Htrans).
  pose proof (dehaze_raw_unguided gf (asarray img) t_min atm_max w p omega r eps
                                  Idark A0 _ Hdark HA0 Htrans) as Hraw.
  destruct (get_radiance_total (asarray img) M N (np_minimum A0 atm_max)
              (np_maximum (grid_map (fun x => 1 - omega * x) d) t_min)
              t_min HI)
    as (J & HJ); [| exact HM | exact Htmin | apply np_maximum_ge |].
  { apply rect_grid_map, rect_grid_map, Hd. }
  unfold dehaze. rewrite Hraw. simpl bind. rewrite HJ. simpl bind.
  do 3 eexists. reflexivity.
Qed.

(** C9 (amended).  [dehaze] checks no parameter.  On a well-formed picture,
    [w <= 0] makes the dark-channel stage raise numpy's [ValueError] and a
    [p] with [int(M * N * p) = 0], the truncation of the binary64 product,
    makes the atmosphere stage raise it, and such a run returns nothing.
    With [guided = false], a picture with positive values, [w >= 1] and
    [floor(M * N * p) >= 1], the run returns its five pictures for every
    [r] and [eps], every [t_min > 0] and every [atm_max] other than 0:
    [p > 1], [r <= 0], [eps <= 0] and values of [t_min] and [atm_max] above
    [max_color_val - 1] are accepted. *)
Theorem dehaze_parameters_unchecked gf (img : grid (Z * Z * Z)) (M N : nat) :
  rect M N img -> (1 <= M)%nat -> (1 <= N)%nat ->
  (forall t_min atm_max w p omega guided r eps,
      (w <= 0)%Z ->
      get_dark_channel (asarray img) w = Raises ValueError /\
      dehaze gf img t_min atm_max w p omega guided r eps = Raises ValueError) /\
  (forall t_min atm_max w p omega guided r eps,
      (1 <= w)%Z ->
      selection_count M N p = 0%Z ->
      (exists Idark, get_dark_channel (asarray img) w = Ok Idark /\
                     get_atmosphere (asarray img) Idark p = Raises ValueError) /\
      dehaze gf img t_min atm_max w p omega guided r eps = Raises ValueError) /\
  (positive_picture img ->
   forall t_min atm_max w p omega r eps,
      (1 <= w)%Z ->
      (1 <= Qfloor (inject_Z (Z.of_nat (M * N)) * p))%Z ->
      ~ atm_max == 0 -> 0 < t_min ->
      exists dark trans radiance,
        dehaze gf img t_min atm_max w p omega false r eps
        = Ok [dark; trans; trans; radiance; radiance]).
Proof.
  intros Himg HM HN.
  assert (HI : rect M N (asarray img)) by (apply rect_grid_map; exact Himg).
  split; [| split].
  - intros t_min atm_max w p omega guided r eps Hw.
    pose proof (get_dark_channel_bad_window (asarray img) M N w HI HM HN Hw)
      as Hd.
    split; [exact Hd |].
    unfold dehaze, dehaze_raw. rewrite Hd. reflexivity.
  - intros t_min atm_max w p omega guided r eps Hw Hk.
    destruct (get_dark_channel_total (asarray img) M N w HI HM HN Hw)
      as (Idark & Hdark & Hdrect).
    assert (HA : get_atmosphere (asarray img) Idark p = Raises ValueError).
    { apply get_atmosphere_no_selection.
      rewrite (shape_rect M N Idark Hdrect HM). exact Hk. }
    split; [exists Idark; split; assumption |].
    unfold dehaze, dehaze_raw. rewrite Hdark. simpl bind. rewrite HA.
    reflexivity.
  - intros Hpos t_min atm_max w p omega r eps Hw Hk Hmax Htmin.
    apply (dehaze_unguided_total gf img M N); assumption.
Qed.

Lemma dehaze_parameters_unchecked_witness :
  dehaze regression_filter sample_picture 0.2 220 0 0.5 0.95 true 40 0.001
  = Raises ValueError /\
  dehaze regression_filter sample_picture 0.2 220 3 0.125 0.95 true 40 0.001
  = Raises ValueError /\
  exists dark trans radiance,
    dehaze regression_filter sample_picture 300 1000 3 1.5 0.95 false (-1) 0
    = Ok [dark; trans; trans; radiance; radiance].
Proof.
  destruct (dehaze_parameters_unchecked regression_filter sample_picture 2 3)
    as (Hw & Hp & Hok).
  - split; [reflexivity | repeat constructor].
  - lia.
  - lia.
  - split; [| split].
    + apply (Hw 0.2 220 0%Z 0.5 0.95 true 40%Z 0.001). lia.
    + apply (Hp 0.2 220 3%Z 0.125 0.95 true 40%Z 0.001).
      * lia.
      * reflexivity.
    + apply (Hok ltac:(unfold positive_picture, sample_picture;
                       repeat constructor; simpl; lia)
                 300 1000 3%Z 1.5 0.95 (-1)%Z 0).
      * lia.
      * vm_compute. discriminate.
      * vm_compute. discriminate.
      * reflexivity.
Defined.

(** C9 as stated fails: runs whose parameters break the stated bounds
    ([p > 1]; [p < 0]; [r <= 0] and [eps <= 0]; [t_min] above 255;
    [atm_max] above 255) return their five pictures. *)
Lemma invalid_parameters_accepted :
  (exists pics,
      dehaze regression_filter sample_picture 0.2 220 3 1.5 0.95 false 40 0.001
      = Ok pics /\ length pics = 5%nat) /\
  (exists pics,
      dehaze regression_filter sample_picture 0.2 220 3 (-0.5) 0.95 false 40
             0.001
      = Ok pics /\ length pics = 5%nat) /\
  (exists pics,
      dehaze regression_filter sample_picture 0.2 220 3 0.5 0.95 false (-1)
             (-1)
      = Ok pics /\ length pics = 5%nat) /\
  (exists pics,
      dehaze regression_filter sample_picture 300 220 3 0.5 0.95 false 40 0.001
      = Ok pics /\ length pics = 5%nat) /\
  (exists pics,
      dehaze regression_filter sample_picture 0.2 1000 3 0.5 0.95 false 40
             0.001
      = Ok pics /\ length pics = 5%nat).
Proof.
  repeat split; eexists; (split; [vm_compute; reflexivity | reflexivity]).
Qed.

(** * Further properties of the dark channel *)

Lemma Qmin_left (a b : Q) : a <= b -> Qmin a b = a.
Proof.
  intros H. unfold Qmin, GenericMinMax.gmin.
  apply (proj1 (Qle_alt a b)) in H. destruct (a ?= b) eqn:E; congruence.
Qed.

Lemma Qmax_left (a b : Q) : b <= a -> Qmax a b = a.
Proof.
  intros H. unfold Qmax, GenericMinMax.gmax.
  apply (proj1 (Qge_alt a b)) in H. destruct (a ?= b) eqn:E; congruence.
Qed.

Lemma fold_left_Qmin_absorb (l : list Q) (m : Q) :
  (forall y, In y l -> m <= y) -> fold_left Qmin l m = m.
Proof.
  induction l as [| y t IH]; intros H; simpl; [reflexivity |].
  rewrite (Qmin_left m y) by (apply H; left; reflexivity).
  apply IH. intros z Hz. apply H. right. exact Hz.
Qed.

Lemma pixel_min_le (x : pixel) :
  pixel_min x <= chR x /\ pixel_min x <= chG x /\ pixel_min x <= chB x.
Proof.
  unfold pixel_min. repeat split.
  - eapply Qle_trans; [apply Q.le_min_l | apply Q.le_min_l].
  - eapply Qle_trans; [apply Q.le_min_l | apply Q.le_min_r].
  - apply Q.le_min_r.
Qed.

Lemma map_seq_eq_map {A B} (l : list A) (d : A) (f : nat -> B) (g : A -> B) :
  (forall i, (i < length l)%nat -> f i = g (nth i l d)) ->
  map f (seq 0 (length l)) = map g l.
Proof.
  intros H. apply (nth_ext _ _ (g d) (g d)).
  - rewrite !length_map, length_seq. reflexivity.
  - intros k Hk. rewrite length_map, length_seq in Hk.
    rewrite nth_map_seq by exact Hk. rewrite map_nth. apply H, Hk.
Qed.

Lemma edge_get_inside (I : image) (M N : nat) (i j : nat) :
  rect M N I -> (i < M)%nat -> (j < N)%nat ->
  edge_get I (Z.of_nat i) (Z.of_nat j) = pixel_at I i j.
Proof.
  intros HI Hi Hj. unfold edge_get, pixel_at.
  rewrite (shape_rect M N I HI) by lia.
  replace (clamp_index M (Z.of_nat i)) with i by (unfold clamp_index; lia).
  replace (clamp_index N (Z.of_nat j)) with j by (unfold clamp_index; lia).
  reflexivity.
Qed.

(** The values of a window, position by position. *)
Lemma In_neighbourhood (I : image) (w : Z) (i j : nat) (v : Q) :
  In v (neighbourhood I w i j) <->
  exists di dj, (di < Z.to_nat w)%nat /\ (dj < Z.to_nat w)%nat /\
    In v (channels (edge_get I (Z.of_nat i + Z.of_nat di - w / 2)
                               (Z.of_nat j + Z.of_nat dj - w / 2))).
Proof.
  unfold neighbourhood. split.
  - intros H. apply in_flat_map in H as (x & Hx & Hv).
    apply in_concat in Hx as (row & Hrow & Hx).
    apply in_map_iff in Hrow as (di & <- & Hdi).
    apply in_map_iff in Hx as (dj & <- & Hdj).
    apply in_seq in Hdi. apply in_seq in Hdj.
    exists di, dj. repeat split; [lia | lia | exact Hv].
  - intros (di & dj & Hdi & Hdj & Hv).
    apply in_flat_map. eexists. split; [| exact Hv].
    apply in_concat. eexists. split.
    + apply in_map_iff. exists di. split; [reflexivity | apply in_seq; lia].
    + apply in_map_iff. exists dj. split; [reflexivity | apply in_seq; lia].
Qed.

Lemma cell_of_cells (M N : nat) (f : nat -> nat -> Q) (i j : nat) :
  (i < M)%nat -> (j < N)%nat ->
  cell (map (fun i => map (fun j => f i j) (seq 0 N)) (seq 0 M)) i j = f i j.
Proof.
  intros Hi Hj. unfold cell.
  rewrite (nth_map_seq _ 0 M i []) by exact Hi.
  rewrite (nth_map_seq _ 0 N j 0) by exact Hj. reflexivity.
Qed.

Lemma grid_of_cells {A} (M N : nat) (I : grid A) (d : A) (f : nat -> nat -> Q)
      (g : A -> Q) :
  rect M N I ->
  (forall i j, (i < M)%nat -> (j < N)%nat -> f i j = g (nth j (nth i I []) d)) ->
  map (fun i => map (fun j => f i j) (seq 0 N)) (seq 0 M) = grid_map g I.
Proof.
  intros [Hlen Hrows] H. unfold grid_map. rewrite <- Hlen.
  apply (map_seq_eq_map I []). intros i Hi.
  assert (HN : length (nth i I []) = N).
  { rewrite Forall_forall in Hrows. apply Hrows, nth_In, Hi. }
  rewrite <- HN. apply (map_seq_eq_map (nth i I []) d).
  intros j Hj. apply H; lia.
Qed.

(** X1.  With [w = 1] nothing is padded and every window is one pixel: the
    dark channel of a well-formed image is, pixel by pixel, the least of
    its three channels. *)
Theorem dark_channel_unit_window (I : image) (M N : nat) :
  rect M N I -> (1 <= M)%nat -> (1 <= N)%nat ->
  get_dark_channel I 1 = Ok (grid_map pixel_min I).
Proof.
  intros HI HM HN.
  rewrite (get_dark_channel_cells I M N 1 HI HM HN) by lia.
  apply f_equal. apply (grid_of_cells M N I (0, 0, 0)); [exact HI |].
  intros i j Hi Hj. unfold neighbourhood.
  change (1 / 2)%Z with 0%Z. change (Z.to_nat 1) with 1%nat. simpl.
  replace (Z.of_nat i + 0 - 0)%Z with (Z.of_nat i) by lia.
  replace (Z.of_nat j + 0 - 0)%Z with (Z.of_nat j) by lia.
  rewrite (edge_get_inside I M N i j HI Hi Hj). reflexivity.
Qed.

Lemma dark_channel_unit_window_witness :
  get_dark_channel sample_image 1 = Ok (grid_map pixel_min sample_image).
Proof.
  apply (dark_channel_unit_window sample_image 2 3).
  - split; [reflexivity | repeat constructor].
  - lia.
  - lia.
Defined.

Lemma centre_in_neighbourhood (I : image) (M N : nat) (w : Z) (i j : nat) v :
  rect M N I -> (i < M)%nat -> (j < N)%nat -> (1 <= w)%Z ->
  In v (channels (pixel_at I i j)) -> In v (neighbourhood I w i j).
Proof.
  intros HI Hi Hj Hw Hv. apply In_neighbourhood.
  assert (Hh : (0 <= w / 2 < w)%Z).
  { split; [apply Z.div_pos; lia | apply Z.div_lt_upper_bound; lia]. }
  exists (Z.to_nat (w / 2)), (Z.to_nat (w / 2)).
  repeat split; [lia | lia |].
  replace (Z.of_nat i + Z.of_nat (Z.to_nat (w / 2)) - w / 2)%Z
    with (Z.of_nat i) by lia.
  replace (Z.of_nat j + Z.of_nat (Z.to_nat (w / 2)) - w / 2)%Z
    with (Z.of_nat j) by lia.
  rewrite (edge_get_inside I M N i j HI Hi Hj). exact Hv.
Qed.

(** X2.  For [w >= 1] the window of a pixel contains the pixel itself: the
    dark channel at [(i, j)] never exceeds any channel of [I[i, j]]. *)
Theorem dark_channel_below_pixel (I : image) (M N : nat) (w : Z) :
  rect M N I -> (1 <= M)%nat -> (1 <= N)%nat -> (1 <= w)%Z ->
  exists dark,
    get_dark_channel I w = Ok dark /\
    forall i j, (i < M)%nat -> (j < N)%nat ->
      cell dark i j <= pixel_min (pixel_at I i j).
Proof.
  intros HI HM HN Hw. eexists.
  split; [apply (get_dark_channel_cells I M N w); assumption |].
  intros i j Hi Hj. rewrite cell_of_cells by assumption.
  destruct (np_min_nonempty (neighbourhood I w i j)
                            (neighbourhood_nonempty I w i j Hw))
    as [_ [_ Hle]].
  assert (Hc : forall v, In v (channels (pixel_at I i j)) ->
                         qmin_list (neighbourhood I w i j) <= v).
  { intros v Hv. apply Hle. eapply centre_in_neighbourhood; eassumption. }
  unfold pixel_min. apply Q.min_glb; [apply Q.min_glb |]; apply Hc; simpl; auto.
Qed.

Lemma dark_channel_below_pixel_witness :
  exists dark,
    get_dark_channel sample_image 3 = Ok dark /\
    forall i j, (i < 2)%nat -> (j < 3)%nat ->
      cell dark i j <= pixel_min (pixel_at sample_image i j).
Proof.
  apply (dark_channel_below_pixel sample_image 2 3 3).
  - split; [reflexivity | repeat constructor].
  - lia.
  - lia.
  - lia.
Defined.

(** X3.  Every value of a dark channel is a channel value of the image, so
    the dark channel stays within any bounds that hold for the image (an
    image in [0, 255] has its dark channel in [0, 255]). *)
Theorem dark_channel_within_range (I : image) (w : Z) (dark : grid Q)
        (lo hi : Q) :
  get_dark_channel I w = Ok dark ->
  image_within lo hi I ->
  grid_within lo hi dark.
Proof.
  intros Hd HI. apply Forall_forall. intros row Hrow.
  apply Forall_forall. intros d Hin.
  destruct (get_dark_channel_values I w dark Hd row d Hrow Hin)
    as (irow & x & Hirow & Hx & Hv).
  unfold image_within in HI. rewrite Forall_forall in HI.
  pose proof (HI irow Hirow) as Hr. rewrite Forall_forall in Hr.
  apply (Hr x Hx d Hv).
Qed.

Lemma dark_channel_within_range_witness :
  grid_within 0 255 sample_dark.
Proof.
  apply (dark_channel_within_range sample_image 1 sample_dark 0 255).
  - vm_compute. reflexivity.
  - unfold image_within, sample_image.
    repeat (first [apply Forall_nil | apply Forall_cons]);
      intros v [<- | [<- | [<- | []]]]; split; vm_compute; discriminate.
Defined.

Lemma qmin_list_incl (l l' : list Q) :
  incl l l' -> l <> [] -> qmin_list l' <= qmin_list l.
Proof.
  intros Hincl Hne.
  assert (Hne' : l' <> []).
  { destruct l as [| x t]; [congruence |].
    intros E. specialize (Hincl x (or_introl eq_refl)).
    rewrite E in Hincl. destruct Hincl. }
  destruct (np_min_nonempty l Hne) as [_ [Hin _]].
  destruct (np_min_nonempty l' Hne') as [_ [_ Hle]].
  apply Hle, Hincl, Hin.
Qed.

Lemma neighbourhood_grows (I : image) (w : Z) (i j : nat) :
  (0 <= w)%Z -> incl (neighbourhood I w i j) (neighbourhood I (w + 2) i j).
Proof.
  intros Hw v Hv. apply In_neighbourhood in Hv as (di & dj & Hdi & Hdj & Hv).
  apply In_neighbourhood. exists (S di), (S dj).
  replace ((w + 2) / 2)%Z with (w / 2 + 1)%Z
    by (rewrite <- (Z.div_add w 1 2) by lia; f_equal; lia).
  repeat split; [lia | lia |].
  replace (Z.of_nat i + Z.of_nat (S di) - (w / 2 + 1))%Z
    with (Z.of_nat i + Z.of_nat di - w / 2)%Z by lia.
  replace (Z.of_nat j + Z.of_nat (S dj) - (w / 2 + 1))%Z
    with (Z.of_nat j + Z.of_nat dj - w / 2)%Z by lia.
  exact Hv.
Qed.

(** X4.  A window of size [w + 2] contains the window of size [w] around
    the same pixel: enlarging the window by 2 never raises a dark-channel
    value. *)
Theorem dark_channel_window_growth (I : image) (M N : nat) (w : Z) :
  rect M N I -> (1 <= M)%nat -> (1 <= N)%nat -> (1 <= w)%Z ->
  exists d1 d2,
    get_dark_channel I w = Ok d1 /\
    get_dark_channel I (w + 2) = Ok d2 /\
    forall i j, (i < M)%nat -> (j < N)%nat -> cell d2 i j <= cell d1 i j.
Proof.
  intros HI HM HN Hw. do 2 eexists.
  split; [apply (get_dark_channel_cells I M N w); assumption |].
  split; [apply (get_dark_channel_cells I M N (w + 2)); assumption || lia |].
  intros i j Hi Hj. rewrite !cell_of_cells by assumption.
  apply qmin_list_incl.
  - apply neighbourhood_grows. lia.
  - apply neighbourhood_nonempty. exact Hw.
Qed.

Lemma dark_channel_window_growth_witness :
  exists d1 d2,
    get_dark_channel sample_image 1 = Ok d1 /\
    get_dark_channel sample_image (1 + 2) = Ok d2 /\
    forall i j, (i < 2)%nat -> (j < 3)%nat -> cell d2 i j <= cell d1 i j.
Proof.
  apply (dark_channel_window_growth sample_image 2 3 1).
  - split; [reflexivity | repeat constructor].
  - lia.
  - lia.
  - lia.
Defined.

Lemma rect_full {A} (M N : nat) (x : A) : rect M N (full M N x).
Proof.
  unfold full. split; [apply repeat_length |].
  apply Forall_forall. intros row Hrow.
  apply repeat_spec in Hrow. subst. apply repeat_length.
Qed.

Lemma edge_get_full (M N : nat) (c : pixel) (a b : Z) :
  (1 <= M)%nat -> (1 <= N)%nat -> edge_get (full M N c) a b = c.
Proof.
  intros HM HN. unfold edge_get.
  rewrite (shape_rect M N _ (rect_full M N c) HM). unfold full.
  rewrite (nth_repeat_lt (repeat c N)) by (apply clamp_index_lt; exact HM).
  apply nth_repeat_lt, clamp_index_lt, HN.
Qed.

Lemma qmin_list_same_pixel (c : pixel) (ps : list pixel) :
  ps <> [] -> Forall (eq c) ps ->
  qmin_list (flat_map channels ps) = pixel_min c.
Proof.
  intros Hne Hall. destruct ps as [| x t]; [congruence |].
  inversion Hall as [| ? ? Hx Ht]; subst. simpl.
  apply fold_left_Qmin_absorb. intros y Hy.
  apply in_flat_map in Hy as (z & Hz & Hy).
  rewrite Forall_forall in Ht. rewrite <- (Ht z Hz) in Hy.
  destruct (pixel_min_le x) as (HR & HG & HB).
  destruct Hy as [<- | [<- | [<- | []]]]; assumption.
Qed.

Lemma get_dark_channel_full (M N : nat) (c : pixel) (w : Z) :
  (1 <= M)%nat -> (1 <= N)%nat -> (1 <= w)%Z ->
  get_dark_channel (full M N c) w = Ok (full M N (pixel_min c)).
Proof.
  intros HM HN Hw.
  rewrite (get_dark_channel_cells _ M N w (rect_full M N c) HM HN Hw).
  apply f_equal.
  transitivity (map (fun _ : nat => map (fun _ : nat => pixel_min c) (seq 0 N))
                    (seq 0 M)).
  2: { rewrite map_const, length_seq, map_const, length_seq. reflexivity. }
  apply map_ext. intros i. apply map_ext. intros j.
  unfold neighbourhood. apply qmin_list_same_pixel.
  - destruct (Z.to_nat w) as [| n] eqn:E; [lia |].
    rewrite <- cons_seq. simpl. discriminate.
  - apply Forall_forall. intros x Hx.
    apply in_concat in Hx as (row & Hrow & Hx).
    apply in_map_iff in Hrow as (di & <- & _).
    apply in_map_iff in Hx as (dj & <- & _).
    symmetry. apply edge_get_full; assumption.
Qed.

(** X5.  On an image of a single colour the dark channel is, for every
    window size [w >= 1], the least channel of that colour everywhere. *)
Theorem dark_channel_constant_image (M N : nat) (c : pixel) (w : Z) :
  (1 <= M)%nat -> (1 <= N)%nat -> (1 <= w)%Z ->
  get_dark_channel (full M N c) w = Ok (full M N (pixel_min c)).
Proof. apply get_dark_channel_full. Qed.

Lemma dark_channel_constant_image_witness :
  get_dark_channel (full 3 2 (40, 20, 30)) 5 = Ok (full 3 2 (pixel_min (40, 20, 30))).
Proof.
  apply (dark_channel_constant_image 3 2 (40, 20, 30) 5); lia.
Defined.

(** * Further properties of the atmosphere light *)

Lemma search_idx_firstn (dark : grid Q) (p : Q) :
  exists n, search_idx dark p = firstn n (argsort (map Qopp (ravel dark))).
Proof.
  unfold search_idx. destruct (shape dark) as [M N]. unfold slice_to.
  destruct (_ <? 0)%Z; eexists; reflexivity.
Qed.

Lemma search_idx_range (dark : grid Q) (p : Q) (i : nat) :
  In i (search_idx dark p) -> (i < length (ravel dark))%nat.
Proof.
  destruct (search_idx_firstn dark p) as [n ->]. intros H.
  apply In_firstn, argsort_In in H. rewrite length_map in H. exact H.
Qed.

(** Whenever some position is selected, [get_atmosphere] returns the
    maximum of each channel over the selected pixels. *)
Lemma get_atmosphere_selected (I : image) (dark : grid Q) (M N : nat) (p : Q) :
  rect M N I -> rect M N dark -> (1 <= M)%nat ->
  search_idx dark p <> [] ->
  exists A,
    get_atmosphere I dark p = Ok A /\
    is_max (chR A) (map (fun i => chR (nth i (ravel I) (0, 0, 0)))
                        (search_idx dark p)) /\
    is_max (chG A) (map (fun i => chG (nth i (ravel I) (0, 0, 0)))
                        (search_idx dark p)) /\
    is_max (chB A) (map (fun i => chB (nth i (ravel I) (0, 0, 0)))
                        (search_idx dark p)).
Proof.
  intros HI Hd HM Hne. unfold get_atmosphere.
  rewrite (shape_rect M N dark Hd HM), (length_ravel M N I HI), Nat.eqb_refl.
  simpl bind. rewrite (take_Ok (ravel I) (search_idx dark p) (0, 0, 0)).
  2: { intros i Hi. apply search_idx_range in Hi.
       rewrite (length_ravel M N I HI), <- (length_ravel M N dark Hd).
       exact Hi. }
  simpl bind.
  destruct (np_max_axis0_spec
              (map (fun i => nth i (ravel I) (0, 0, 0)) (search_idx dark p)))
    as (A & HA & HR & HG & HB).
  { intros E. apply map_eq_nil in E. contradiction. }
  rewrite !map_map in HR, HG, HB.
  exists A. split; [exact HA |]. split; [exact HR |]. split; assumption.
Qed.

Lemma get_atmosphere_Ok (I : image) (dark : grid Q) (p : Q) (A : pixel) :
  get_atmosphere I dark p = Ok A ->
  exists x y z, In x (ravel I) /\ In y (ravel I) /\ In z (ravel I) /\
                chR A = chR x /\ chG A = chG y /\ chB A = chB z.
Proof.
  unfold get_atmosphere. destruct (shape dark) as [M N]. intros H.
  apply bind_Ok in H as (flat_I & Hflat & H).
  destruct (Nat.eqb _ _); [| discriminate]. injection Hflat as <-.
  apply bind_Ok in H as (sel & Hsel & H).
  assert (Hin : forall x, In x sel -> In x (ravel I)).
  { intros x Hx. apply mapM_Ok_inv in Hsel.
    destruct (Forall2_In_r _ _ _ _ Hsel Hx) as (i & _ & Hi).
    destruct (nth_error (ravel I) i) as [y |] eqn:E; [| discriminate].
    injection Hi as <-. eapply nth_error_In, E. }
  destruct (np_max_axis0_spec sel) as (A' & HA' & [HR _] & [HG _] & [HB _]).
  { intros E. rewrite E in H. discriminate. }
  rewrite HA' in H. injection H as <-.
  apply in_map_iff in HR as (x & Hx & Hxin).
  apply in_map_iff in HG as (y & Hy & Hyin).
  apply in_map_iff in HB as (z & Hz & Hzin).
  exists x, y, z. repeat split; auto.
Qed.

Lemma In_ravel_within (lo hi : Q) (I : image) (x : pixel) (v : Q) :
  image_within lo hi I -> In x (ravel I) -> In v (channels x) -> lo <= v <= hi.
Proof.
  intros HI Hx Hv. unfold ravel in Hx.
  apply in_concat in Hx as (row & Hrow & Hx).
  unfold image_within in HI. rewrite Forall_forall in HI.
  pose proof (HI row Hrow) as Hr. rewrite Forall_forall in Hr.
  apply (Hr x Hx v Hv).
Qed.

(** X6.  Each component of the atmosphere light is the value of that
    channel at some pixel of the image; it therefore stays within any
    bounds that hold for the image (within [0, 255] for an 8-bit image). *)
Theorem atmosphere_within_range (I : image) (dark : grid Q) (p : Q) (A : pixel)
        (lo hi : Q) :
  get_atmosphere I dark p = Ok A ->
  image_within lo hi I ->
  lo <= chR A <= hi /\ lo <= chG A <= hi /\ lo <= chB A <= hi.
Proof.
  intros HA HI.
  apply get_atmosphere_Ok in HA
    as (x & y & z & Hx & Hy & Hz & -> & -> & ->).
  repeat split;
    first [ apply (In_ravel_within lo hi I x (chR x) HI Hx); simpl; auto
          | apply (In_ravel_within lo hi I y (chG y) HI Hy); simpl; auto
          | apply (In_ravel_within lo hi I z (chB z) HI Hz); simpl; auto ].
Qed.

Lemma sample_image_within : image_within 0 255 sample_image.
Proof.
  unfold image_within, sample_image.
  repeat (first [apply Forall_nil | apply Forall_cons]);
    intros v [<- | [<- | [<- | []]]]; split; vm_compute; discriminate.
Qed.

Lemma atmosphere_within_range_witness :
  0 <= chR (9, 8, 9) <= 255 /\ 0 <= chG (9, 8, 9) <= 255
  /\ 0 <= chB (9, 8, 9) <= 255.
Proof.
  apply (atmosphere_within_range sample_image sample_dark 0.5 (9, 8, 9) 0 255).
  - vm_compute. reflexivity.
  - exact sample_image_within.
Defined.

Lemma floor_count_nonempty (dark : grid Q) (M N : nat) (p : Q) :
  rect M N dark -> (1 <= M)%nat -> (1 <= N)%nat ->
  (1 <= Qfloor (inject_Z (Z.of_nat (M * N)) * p))%Z ->
  search_idx dark p <> [].
Proof.
  intros Hd HM HN Hk E. apply (f_equal (@length _)) in E.
  pose proof (selection_count_ge_1 M N p Hk) as Hk1.
  rewrite (search_idx_prefix dark M N p Hd HM) in E by lia.
  rewrite length_firstn, length_argsort, length_map in E.
  rewrite (length_ravel M N dark Hd) in E.
  change (length (@nil nat)) with 0%nat in E.
  assert (1 <= M * N)%nat by nia. lia.
Qed.

Lemma get_atmosphere_full (M N : nat) (c : pixel) (dark : grid Q)
        (p : Q) :
  rect M N dark -> (1 <= M)%nat -> (1 <= N)%nat ->
  (1 <= Qfloor (inject_Z (Z.of_nat (M * N)) * p))%Z ->
  get_atmosphere (full M N c) dark p = Ok c.
Proof.
  intros Hd HM HN Hk.
  destruct (get_atmosphere_selected (full M N c) dark M N p (rect_full M N c)
              Hd HM (floor_count_nonempty dark M N p Hd HM HN Hk))
    as (A & HA & _ & _ & _).
  rewrite HA. f_equal.
  apply get_atmosphere_Ok in HA as (x & y & z & Hx & Hy & Hz & HR & HG & HB).
  assert (Hc : forall u, In u (ravel (full M N c)) -> u = c).
  { intros u Hu. unfold ravel, full in Hu.
    apply in_concat in Hu as (row & Hrow & Hu).
    apply repeat_spec in Hrow. subst row. apply repeat_spec in Hu. exact Hu. }
  rewrite (Hc x Hx) in HR. rewrite (Hc y Hy) in HG. rewrite (Hc z Hz) in HB.
  destruct A as [[a1 a2] a3], c as [[c1 c2] c3].
  unfold chR, chG, chB in *; simpl in *. congruence.
Qed.

(** X7.  On an image of a single colour the atmosphere light is that
    colour, whatever the dark channel map and the fraction selected. *)
Theorem atmosphere_constant_image (M N : nat) (c : pixel) (dark : grid Q)
        (p : Q) :
  rect M N dark -> (1 <= M)%nat -> (1 <= N)%nat ->
  (1 <= Qfloor (inject_Z (Z.of_nat (M * N)) * p))%Z ->
  get_atmosphere (full M N c) dark p = Ok c.
Proof. apply get_atmosphere_full. Qed.

Lemma atmosphere_constant_image_witness :
  get_atmosphere (full 2 3 (40, 20, 30)) sample_dark 0.5 = Ok (40, 20, 30).
Proof.
  apply (atmosphere_constant_image 2 3 (40, 20, 30) sample_dark 0.5).
  - split; [reflexivity | repeat constructor].
  - lia.
  - lia.
  - vm_compute. discriminate.
Defined.

Lemma incl_firstn_le {A} (k1 k2 : nat) (l : list A) :
  (k1 <= k2)%nat -> incl (firstn k1 l) (firstn k2 l).
Proof.
  intros Hk x Hx.
  replace k1 with (Nat.min k1 k2) in Hx by lia.
  rewrite <- firstn_firstn in Hx. eapply In_firstn, Hx.
Qed.

Lemma is_max_incl (m m' : Q) (l l' : list Q) :
  is_max m l -> is_max m' l' -> incl l l' -> m <= m'.
Proof. intros [Hin _] [_ Hle] Hincl. apply Hle, Hincl, Hin. Qed.

Lemma count_nonneg_scale (n : nat) (p1 p2 : Q) :
  p1 <= p2 ->
  (Qfloor (inject_Z (Z.of_nat n) * p1)
   <= Qfloor (inject_Z (Z.of_nat n) * p2))%Z.
Proof.
  intros Hp. apply Qfloor_resp_le.
  rewrite !(Qmult_comm (inject_Z (Z.of_nat n))).
  apply Qmult_le_compat_r; [exact Hp |].
  change 0 with (inject_Z 0). rewrite <- Zle_Qle. lia.
Qed.

(** The number of selected positions grows with the fraction. *)
Lemma selection_count_le (M N : nat) (p1 p2 : Q) :
  0 <= p1 -> p1 <= p2 ->
  (selection_count M N p1 <= selection_count M N p2)%Z.
Proof.
  intros H0 Hp.
  assert (Hn : 0 <= inject_Z (Z.of_nat (M * N)))
    by (change 0 with (inject_Z 0); rewrite <- Zle_Qle; lia).
  apply count_le.
  - apply Qmult_le_0_compat; assumption.
  - apply Qmult_le_nonneg_l; assumption.
Qed.

Lemma floor_count_fraction_nonneg (n : nat) (p : Q) :
  (1 <= Qfloor (inject_Z (Z.of_nat n) * p))%Z -> 0 <= p.
Proof.
  intros Hk. destruct (Qlt_le_dec p 0) as [Hneg | Hnn]; [| exact Hnn].
  exfalso.
  assert (Hx : inject_Z (Z.of_nat n) * p <= 0).
  { rewrite <- (Qmult_0_r (inject_Z (Z.of_nat n))).
    apply Qmult_le_nonneg_l; [| apply Qlt_le_weak, Hneg].
    change 0 with (inject_Z 0). rewrite <- Zle_Qle. lia. }
  apply Qfloor_resp_le in Hx. change (Qfloor 0) with 0%Z in Hx. lia.
Qed.

(** X8.  A larger fraction [p] selects a longer prefix of the same ranking,
    so the atmosphere light never decreases, in any channel, when [p]
    grows. *)
Theorem atmosphere_monotone_in_fraction (I : image) (dark : grid Q)
        (M N : nat) (p1 p2 : Q) :
  rect M N I -> rect M N dark -> (1 <= M)%nat -> (1 <= N)%nat ->
  (1 <= Qfloor (inject_Z (Z.of_nat (M * N)) * p1))%Z ->
  p1 <= p2 ->
  exists A1 A2,
    get_atmosphere I dark p1 = Ok A1 /\
    get_atmosphere I dark p2 = Ok A2 /\
    chR A1 <= chR A2 /\ chG A1 <= chG A2 /\ chB A1 <= chB A2.
Proof.
  intros HI Hd HM HN Hk1 Hp.
  pose proof (count_nonneg_scale (M * N) p1 p2 Hp) as Hk.
  assert (Hk2 : (1 <= Qfloor (inject_Z (Z.of_nat (M * N)) * p2))%Z) by lia.
  destruct (get_atmosphere_selected I dark M N p1 HI Hd HM
              (floor_count_nonempty dark M N p1 Hd HM HN Hk1))
    as (A1 & HA1 & HR1 & HG1 & HB1).
  destruct (get_atmosphere_selected I dark M N p2 HI Hd HM
              (floor_count_nonempty dark M N p2 Hd HM HN Hk2))
    as (A2 & HA2 & HR2 & HG2 & HB2).
  assert (Hincl : incl (search_idx dark p1) (search_idx dark p2)).
  { pose proof (selection_count_ge_1 M N p1 Hk1) as Hc1.
    pose proof (selection_count_le M N p1 p2
                  (floor_count_fraction_nonneg (M * N) p1 Hk1) Hp) as Hc.
    rewrite (search_idx_prefix dark M N p1 Hd HM) by lia.
    rewrite (search_idx_prefix dark M N p2 Hd HM) by lia.
    apply incl_firstn_le. lia. }
  exists A1, A2. split; [exact HA1 |]. split; [exact HA2 |].
  split; [| split].
  - eapply is_max_incl; [exact HR1 | exact HR2 | apply incl_map, Hincl].
  - eapply is_max_incl; [exact HG1 | exact HG2 | apply incl_map, Hincl].
  - eapply is_max_incl; [exact HB1 | exact HB2 | apply incl_map, Hincl].
Qed.

Lemma atmosphere_monotone_in_fraction_witness :
  exists A1 A2,
    get_atmosphere sample_image sample_dark 0.2 = Ok A1 /\
    get_atmosphere sample_image sample_dark 0.7 = Ok A2 /\
    chR A1 <= chR A2 /\ chG A1 <= chG A2 /\ chB A1 <= chB A2.
Proof.
  apply (atmosphere_monotone_in_fraction sample_image sample_dark 2 3 0.2 0.7).
  - split; [reflexivity | repeat constructor].
  - split; [reflexivity | repeat constructor].
  - lia.
  - lia.
  - vm_compute. discriminate.
  - vm_compute. discriminate.
Defined.

Lemma is_max_perm (m : Q) (l l' : list Q) :
  Permutation l l' -> is_max m l -> is_max m l'.
Proof.
  intros Hp [Hin Hle]. split.
  - eapply Permutation_in; eassumption.
  - intros x Hx. apply Hle.
    eapply Permutation_in; [apply Permutation_sym, Hp | exact Hx].
Qed.

Lemma whole_image_channel (ch : pixel -> Q) (flat_I : list pixel)
      (s : list nat) (m : Q) :
  Permutation s (seq 0 (length flat_I)) ->
  is_max m (map (fun i => ch (nth i flat_I (0, 0, 0))) s) ->
  is_max m (map ch flat_I).
Proof.
  intros Hp Hm.
  rewrite <- (map_seq_eq_map flat_I (0, 0, 0)
                             (fun i => ch (nth i flat_I (0, 0, 0))) ch)
    by reflexivity.
  eapply is_max_perm; [apply Permutation_map, Hp | exact Hm].
Qed.

(** X9.  For [p >= 1] the slice covers the whole ranking: the atmosphere
    light is the maximum of each channel over the entire image and does not
    depend on the dark channel.  The image has at most [2 ^ 53] pixels, so
    that [M * N] is a binary64 number. *)
Theorem atmosphere_whole_image (I : image) (dark : grid Q) (M N : nat) (p : Q) :
  rect M N I -> rect M N dark -> (1 <= M)%nat -> (1 <= N)%nat ->
  (Z.of_nat (M * N) <= 2 ^ 53)%Z ->
  1 <= p ->
  exists A,
    get_atmosphere I dark p = Ok A /\
    is_max (chR A) (map chR (ravel I)) /\
    is_max (chG A) (map chG (ravel I)) /\
    is_max (chB A) (map chB (ravel I)).
Proof.
  intros HI Hd HM HN Hsize Hp.
  assert (HMN : (1 <= M * N)%nat) by nia.
  assert (Hk : (Z.of_nat (M * N)
                <= Qfloor (inject_Z (Z.of_nat (M * N)) * p))%Z).
  { rewrite <- (Qfloor_Z (Z.of_nat (M * N))) at 1.
    rewrite <- (Qfloor_comp _ _ (Qmult_1_r (inject_Z (Z.of_nat (M * N))))).
    apply count_nonneg_scale, Hp. }
  assert (Hk1 : (1 <= Qfloor (inject_Z (Z.of_nat (M * N)) * p))%Z) by lia.
  assert (Hc : (Z.of_nat (M * N) <= selection_count M N p)%Z).
  { apply count_ge_inject_Z; [lia |].
    rewrite <- (Qmult_1_r (inject_Z (Z.of_nat (M * N)))) at 1.
    apply Qmult_le_nonneg_l; [| exact Hp].
    change 0 with (inject_Z 0). rewrite <- Zle_Qle. lia. }
  destruct (get_atmosphere_selected I dark M N p HI Hd HM
              (floor_count_nonempty dark M N p Hd HM HN Hk1))
    as (A & HA & HR & HG & HB).
  rewrite (search_idx_prefix dark M N p Hd HM) in HR, HG, HB by lia.
  rewrite firstn_all2 in HR, HG, HB
    by (rewrite length_argsort, length_map, (length_ravel M N dark Hd); lia).
  assert (Hperm : Permutation (argsort (map Qopp (ravel dark)))
                              (seq 0 (length (ravel I)))).
  { rewrite (length_ravel M N I HI), <- (length_ravel M N dark Hd).
    rewrite <- (length_map Qopp). apply argsort_perm. }
  exists A. split; [exact HA |].
  split; [| split]; eapply whole_image_channel; eassumption.
Qed.

Lemma atmosphere_whole_image_witness :
  exists A,
    get_atmosphere sample_image sample_dark 1.5 = Ok A /\
    is_max (chR A) (map chR (ravel sample_image)) /\
    is_max (chG A) (map chG (ravel sample_image)) /\
    is_max (chB A) (map chB (ravel sample_image)).
Proof.
  apply (atmosphere_whole_image sample_image sample_dark 2 3 1.5).
  - split; [reflexivity | repeat constructor].
  - split; [reflexivity | repeat constructor].
  - lia.
  - lia.
  - vm_compute. discriminate.
  - vm_compute. discriminate.
Defined.

Lemma get_atmosphere_empty_idx (I : image) (dark : grid Q) (p : Q) :
  search_idx dark p = [] -> get_atmosphere I dark p = Raises ValueError.
Proof.
  intros Hidx. unfold get_atmosphere. rewrite Hidx.
  destruct (shape dark) as [M N].
  destruct (Nat.eqb (length (ravel I)) (M * N)); reflexivity.
Qed.

(** X10.  A negative [p] is not rejected: [int(M * N * p) = k < 0], the
    truncation of the binary64 product, makes the slice drop the last [|k|]
    positions of the ranking.  With [M * N + k >= 1] positions left the
    atmosphere light is computed from them; with none left numpy raises
    [ValueError]. *)
Theorem atmosphere_negative_fraction (I : image) (dark : grid Q) (M N : nat)
        (p : Q) :
  rect M N I -> rect M N dark -> (1 <= M)%nat -> (1 <= N)%nat ->
  (selection_count M N p < 0)%Z ->
  let left := Z.to_nat (Z.of_nat (M * N) + selection_count M N p) in
  length (search_idx dark p) = left /\
  (left = 0%nat -> get_atmosphere I dark p = Raises ValueError) /\
  ((1 <= left)%nat -> exists A, get_atmosphere I dark p = Ok A).
Proof.
  intros HI Hd HM HN Hk left.
  assert (Hlen : length (argsort (map Qopp (ravel dark))) = (M * N)%nat).
  { rewrite length_argsort, length_map. apply length_ravel, Hd. }
  assert (Hidx : search_idx dark p
                 = firstn left (argsort (map Qopp (ravel dark)))).
  { unfold search_idx. rewrite (shape_rect M N dark Hd HM).
    fold (selection_count M N p). unfold slice_to.
    replace (_ <? 0)%Z with true by (symmetry; apply Z.ltb_lt; exact Hk).
    rewrite Hlen. reflexivity. }
  assert (Hcount : length (search_idx dark p) = left).
  { rewrite Hidx, length_firstn, Hlen. unfold left. lia. }
  split; [exact Hcount |]. split.
  - intros H0. apply get_atmosphere_empty_idx.
    apply length_zero_iff_nil. lia.
  - intros H1.
    destruct (get_atmosphere_selected I dark M N p HI Hd HM)
      as (A & HA & _).
    + intros E. rewrite E in Hcount. simpl in Hcount. lia.
    + exists A. exact HA.
Qed.

Lemma atmosphere_negative_fraction_witness :
  let left := Z.to_nat (Z.of_nat (2 * 3) + selection_count 2 3 (- third)) in
  length (search_idx sample_dark (- third)) = left /\
  (left = 0%nat ->
   get_atmosphere sample_image sample_dark (- third) = Raises ValueError) /\
  ((1 <= left)%nat ->
   exists A, get_atmosphere sample_image sample_dark (- third) = Ok A).
Proof.
  apply (atmosphere_negative_fraction sample_image sample_dark 2 3 (- third)).
  - split; [reflexivity | repeat constructor].
  - split; [reflexivity | repeat constructor].
  - lia.
  - lia.
  - vm_compute. reflexivity.
Defined.

(** ** The atmosphere light and the dark channel it is read from *)

Lemma Forall2_seq_nth {A B} (R : B -> A -> Prop) (f : nat -> B) (l : list A)
      (d : A) (s : nat) :
  (forall i, (i < length l)%nat -> R (f (s + i)%nat) (nth i l d)) ->
  Forall2 R (map f (seq s (length l))) l.
Proof.
  revert s; induction l as [| x t IH]; intros s H; simpl; constructor.
  - specialize (H 0%nat). rewrite Nat.add_0_r in H. apply H. simpl. lia.
  - apply IH. intros i Hi. specialize (H (S i)).
    replace (S s + i)%nat with (s + S i)%nat by lia. apply H. simpl. lia.
Qed.

Lemma Forall2_concat {A B} (R : A -> B -> Prop) (g : grid A) (h : grid B) :
  Forall2 (Forall2 R) g h -> Forall2 R (concat g) (concat h).
Proof.
  induction 1; simpl; [constructor | apply Forall2_app; assumption].
Qed.

Lemma Forall2_nth {A B} (R : A -> B -> Prop) (l : list A) (l' : list B)
      (n : nat) (d : A) (d' : B) :
  Forall2 R l l' -> (n < length l)%nat -> R (nth n l d) (nth n l' d').
Proof.
  intros H; revert n; induction H as [| x y l l' Hxy _ IH]; intros n Hn.
  - simpl in Hn. lia.
  - destruct n as [| n]; simpl; [exact Hxy | apply IH; simpl in Hn; lia].
Qed.

(** Position by position in row-major order, the dark channel is below
    the least channel of the pixel. *)
Lemma dark_channel_below_flat (I : image) (M N : nat) (w : Z) :
  rect M N I -> (1 <= M)%nat -> (1 <= N)%nat -> (1 <= w)%Z ->
  exists dark,
    get_dark_channel I w = Ok dark /\ rect M N dark /\
    forall n, (n < M * N)%nat ->
      nth n (ravel dark) 0 <= pixel_min (nth n (ravel I) (0, 0, 0)).
Proof.
  intros HI HM HN Hw.
  destruct (get_dark_channel_total I M N w HI HM HN Hw) as (dark & Hd & Hdr).
  exists dark. split; [exact Hd |]. split; [exact Hdr |].
  assert (HF : Forall2 (Forall2 (fun d x => d <= pixel_min x)) dark I).
  { pose proof (get_dark_channel_cells I M N w HI HM HN Hw) as Hc.
    rewrite Hd in Hc. injection Hc as ->.
    destruct HI as [Hlen Hrows]. rewrite <- Hlen.
    apply (Forall2_seq_nth _ _ I []). intros i Hi. simpl.
    assert (Hrow : length (nth i I []) = N).
    { rewrite Forall_forall in Hrows. apply Hrows, nth_In, Hi. }
    rewrite <- Hrow at 1.
    apply (Forall2_seq_nth _ _ (nth i I []) (0, 0, 0)). intros j Hj. simpl.
    destruct (np_min_nonempty (neighbourhood I w i j)
                              (neighbourhood_nonempty I w i j Hw))
      as [_ [_ Hle]].
    assert (Hcen : forall v, In v (channels (pixel_at I i j)) ->
                             qmin_list (neighbourhood I w i j) <= v).
    { intros v Hv. apply Hle.
      apply (centre_in_neighbourhood I (length I) N w i j v);
        [split; [reflexivity | exact Hrows] | lia | lia | exact Hw | exact Hv]. }
    unfold pixel_min. fold (pixel_at I i j).
    apply Q.min_glb; [apply Q.min_glb |]; apply Hcen; simpl; auto. }
  intros n Hn.
  apply (Forall2_nth (fun d x => d <= pixel_min x) (ravel dark) (ravel I)).
  - apply Forall2_concat, HF.
  - rewrite (length_ravel M N dark Hdr). exact Hn.
Qed.

(** X11.  In the pipeline the atmosphere light is read where the dark
    channel is highest, and the dark channel is below every channel of its
    own pixel: before clamping, every component of the atmosphere light is
    at least every value of the dark channel. *)
Theorem atmosphere_above_dark_channel (I : image) (M N : nat) (w : Z) (p : Q) :
  rect M N I -> (1 <= M)%nat -> (1 <= N)%nat -> (1 <= w)%Z ->
  (1 <= Qfloor (inject_Z (Z.of_nat (M * N)) * p))%Z ->
  exists dark A,
    get_dark_channel I w = Ok dark /\
    get_atmosphere I dark p = Ok A /\
    Forall (Forall (fun d => d <= chR A /\ d <= chG A /\ d <= chB A)) dark.
Proof.
  intros HI HM HN Hw Hk.
  destruct (dark_channel_below_flat I M N w HI HM HN Hw)
    as (dark & Hd & Hdr & Hbelow).
  destruct (atmosphere_selection I dark M N p HI Hdr HM HN
              (selection_count_ge_1 M N p Hk))
    as (Hcount & _ & Hrange & Htop & A & HA & [_ HR] & [_ HG] & [_ HB]).
  exists dark, A. split; [exact Hd |]. split; [exact HA |].
  assert (Hsel : forall i, In i (search_idx dark p) ->
                 nth i (ravel dark) 0 <= chR A /\
                 nth i (ravel dark) 0 <= chG A /\
                 nth i (ravel dark) 0 <= chB A).
  { intros i Hi.
    pose proof (Hbelow i (Hrange i Hi)) as Hb.
    destruct (pixel_min_le (nth i (ravel I) (0, 0, 0))) as (H1 & H2 & H3).
    repeat split.
    - eapply Qle_trans; [exact Hb |]. eapply Qle_trans; [exact H1 |].
      apply HR.
      apply (in_map (fun i => chR (nth i (ravel I) (0, 0, 0)))), Hi.
    - eapply Qle_trans; [exact Hb |]. eapply Qle_trans; [exact H2 |].
      apply HG.
      apply (in_map (fun i => chG (nth i (ravel I) (0, 0, 0)))), Hi.
    - eapply Qle_trans; [exact Hb |]. eapply Qle_trans; [exact H3 |].
      apply HB.
      apply (in_map (fun i => chB (nth i (ravel I) (0, 0, 0)))), Hi. }
  destruct (search_idx dark p) as [| i0 rest] eqn:Eidx.
  { cbv zeta in Hcount. change (length (@nil nat)) with 0%nat in Hcount.
    pose proof (selection_count_ge_1 M N p Hk) as Hk1.
    assert (1 <= M * N)%nat by nia. lia. }
  apply Forall_forall. intros row Hrow. apply Forall_forall. intros d Hin.
  assert (Hflat : In d (ravel dark))
    by (apply in_concat; exists row; split; assumption).
  apply (In_nth _ _ 0) in Hflat as (n & Hn & <-).
  rewrite (length_ravel M N dark Hdr) in Hn.
  destruct (in_dec Nat.eq_dec n (i0 :: rest)) as [Hsel_n | Hnot].
  - apply Hsel, Hsel_n.
  - pose proof (Htop i0 n (or_introl eq_refl) Hn Hnot) as Hle.
    destruct (Hsel i0 (or_introl eq_refl)) as (H1 & H2 & H3).
    repeat split; eapply Qle_trans; eassumption.
Qed.

Lemma atmosphere_above_dark_channel_witness :
  exists dark A,
    get_dark_channel sample_image 3 = Ok dark /\
    get_atmosphere sample_image dark 0.5 = Ok A /\
    Forall (Forall (fun d => d <= chR A /\ d <= chG A /\ d <= chB A)) dark.
Proof.
  apply (atmosphere_above_dark_channel sample_image 2 3 3 0.5).
  - split; [reflexivity | repeat constructor].
  - lia.
  - lia.
  - lia.
  - vm_compute. discriminate.
Defined.

(** * Further properties of the transmission *)

(** The dark channel of [I / A] is read from quotients of a channel of the
    image by the same channel of the light. *)
Lemma normalized_dark_values (I : image) (A : pixel) (w : Z) (dark : grid Q)
      (P : Q -> Prop) :
  get_dark_channel (grid_map (fun x => pixel_map2 Qdiv x A) I) w = Ok dark ->
  (forall row x, In row I -> In x row ->
     P (chR x / chR A) /\ P (chG x / chG A) /\ P (chB x / chB A)) ->
  Forall (Forall P) dark.
Proof.
  intros Hd HP. apply Forall_forall. intros row Hrow.
  apply Forall_forall. intros d Hin.
  destruct (get_dark_channel_values _ _ _ Hd row d Hrow Hin)
    as (irow & x & Hirow & Hx & Hv).
  apply in_map_iff in Hirow as (row0 & <- & Hrow0).
  apply in_map_iff in Hx as (x0 & <- & Hx0).
  destruct (HP row0 x0 Hrow0 Hx0) as (HR & HG & HB).
  destruct Hv as [<- | [<- | [<- | []]]]; assumption.
Qed.

Lemma Forall_grid_map_in {A B} (P : A -> Prop) (Q' : B -> Prop) (f : A -> B)
      (g : grid A) :
  Forall (Forall P) g -> (forall x, P x -> Q' (f x)) ->
  Forall (Forall Q') (grid_map f g).
Proof.
  intros Hg H. apply Forall_map. eapply Forall_impl; [| exact Hg].
  intros row Hrow. apply Forall_map. eapply Forall_impl; [| exact Hrow].
  exact H.
Qed.

Lemma transmission_upper (I : image) (A : pixel) (omega : Q) (w : Z)
        (t : grid Q) :
  get_transmission I A omega w = Ok t ->
  nonneg_image I ->
  0 < chR A -> 0 < chG A -> 0 < chB A ->
  0 <= omega ->
  Forall (Forall (fun x => x <= 1)) t.
Proof.
  intros Ht HI HR HG HB Hw.
  apply get_transmission_Ok in Ht as (dark & Hd & ->).
  apply (Forall_grid_map_in (fun d => 0 <= d)).
  - apply (normalized_dark_values I A w dark _ Hd). intros row x Hrow Hx.
    unfold nonneg_image in HI. rewrite Forall_forall in HI.
    pose proof (HI row Hrow) as Hr. rewrite Forall_forall in Hr.
    destruct (Hr x Hx) as (H1 & H2 & H3).
    repeat split; apply div_nonneg; assumption.
  - intros d Hd0.
    assert (0 <= omega * d) by (apply Qmult_le_0_compat; assumption). lra.
Qed.

(** X12.  For an image with nonnegative values, a light with positive
    components and [omega >= 0], no value of the transmission estimate
    exceeds 1. *)
Theorem transmission_at_most_one (I : image) (A : pixel) (omega : Q) (w : Z)
        (t : grid Q) :
  get_transmission I A omega w = Ok t ->
  nonneg_image I ->
  0 < chR A -> 0 < chG A -> 0 < chB A ->
  0 <= omega ->
  Forall (Forall (fun x => x <= 1)) t.
Proof. apply transmission_upper. Qed.

Lemma sample_image_nonneg : nonneg_image sample_image.
Proof.
  unfold nonneg_image, sample_image.
  repeat constructor; vm_compute; discriminate.
Qed.

Lemma transmission_at_most_one_witness :
  Forall (Forall (fun x => x <= 1))
         [[710 # 900; 710 # 900; 710 # 900]; [710 # 900; 710 # 900; 710 # 900]].
Proof.
  apply (transmission_at_most_one sample_image (9, 8, 9) 0.95 3).
  - vm_compute. reflexivity.
  - exact sample_image_nonneg.
  - reflexivity.
  - reflexivity.
  - reflexivity.
  - vm_compute. discriminate.
Defined.

(** X13.  When, in addition, no pixel exceeds the light in any channel and
    [omega <= 1], every value of the transmission estimate lies between
    [1 - omega] and 1, hence in the interval [0, 1] that the docstring of
    [get_transmission] announces. *)
Theorem transmission_in_unit_interval (I : image) (A : pixel) (omega : Q)
        (w : Z) (t : grid Q) :
  get_transmission I A omega w = Ok t ->
  nonneg_image I -> image_below A I ->
  0 < chR A -> 0 < chG A -> 0 < chB A ->
  0 <= omega -> omega <= 1 ->
  Forall (Forall (fun x => 0 <= 1 - omega /\ 1 - omega <= x /\ x <= 1)) t.
Proof.
  intros Ht HI Hbelow HR HG HB Hw0 Hw1.
  apply get_transmission_Ok in Ht as (dark & Hd & ->).
  apply (Forall_grid_map_in (fun d => 0 <= d /\ d <= 1)).
  - apply (normalized_dark_values I A w dark _ Hd). intros row x Hrow Hx.
    unfold nonneg_image in HI. rewrite Forall_forall in HI.
    pose proof (HI row Hrow) as Hr. rewrite Forall_forall in Hr.
    destruct (Hr x Hx) as (H1 & H2 & H3).
    unfold image_below in Hbelow. rewrite Forall_forall in Hbelow.
    pose proof (Hbelow row Hrow) as Hb. rewrite Forall_forall in Hb.
    destruct (Hb x Hx) as (B1 & B2 & B3).
    repeat split;
      first [ apply div_nonneg; assumption
            | apply Qle_shift_div_r; [assumption | lra] ].
  - intros d [Hd0 Hd1].
    assert (0 <= omega * d) by (apply Qmult_le_0_compat; assumption).
    assert (omega * d <= omega * 1).
    { rewrite !(Qmult_comm omega). apply Qmult_le_compat_r; assumption. }
    repeat split; lra.
Qed.

Lemma transmission_in_unit_interval_witness :
  Forall (Forall (fun x => 0 <= 1 - 0.95 /\ 1 - 0.95 <= x /\ x <= 1))
         [[535 # 1200; 520 # 900; 615 # 900];
          [340 # 1100; 710 # 900; 725 # 1200]].
Proof.
  apply (transmission_in_unit_interval sample_image (9, 11, 12) 0.95 1).
  - vm_compute. reflexivity.
  - exact sample_image_nonneg.
  - unfold image_below, sample_image.
    repeat constructor; vm_compute; discriminate.
  - reflexivity.
  - reflexivity.
  - reflexivity.
  - vm_compute. discriminate.
  - vm_compute. discriminate.
Defined.

(** X14.  In a run of [dehaze_raw] on an image with nonnegative values
    whose (clamped) atmosphere light is positive, with [omega >= 0], the map
    [rawt] lies between [t_min] and [max(1, t_min)]. *)
Theorem floored_transmission_range gf (I : image) (t_min atm_max : Q) (w : Z)
        (p omega : Q) (guided : bool) (r : Z) (eps : Q)
        (Idark : grid Q) (A : pixel) (rawt refinedt : grid Q) :
  dehaze_raw gf I t_min atm_max w p omega guided r eps
  = Ok (Idark, A, rawt, refinedt) ->
  nonneg_image I ->
  0 < chR A -> 0 < chG A -> 0 < chB A ->
  0 <= omega ->
  grid_within t_min (Qmax 1 t_min) rawt.
Proof.
  intros Hrun HI HR HG HB Hw.
  apply dehaze_raw_Ok in Hrun as (A0 & raw0 & _ & _ & _ & Ht & -> & _).
  apply (Forall_grid_map_in (fun x => x <= 1)).
  - apply (transmission_upper I A omega w); assumption.
  - intros x Hx. split; [apply Q.le_max_r |].
    apply Q.max_le_compat_r. exact Hx.
Qed.

Lemma floored_transmission_range_witness :
  grid_within 0.2 (Qmax 1 0.2) (full 2 3 (710 # 900)).
Proof.
  apply (floored_transmission_range (fun _ t _ _ => Ok t) sample_image
           0.2 220 3 0.5 0.95 false 40 0.001
           (full 2 3 2) (9, 8, 9) (full 2 3 (710 # 900)) (full 2 3 (710 # 900))).
  - vm_compute. reflexivity.
  - exact sample_image_nonneg.
  - reflexivity.
  - reflexivity.
  - reflexivity.
  - vm_compute. discriminate.
Defined.

(** * Further properties of the recovered radiance *)

Lemma nth_map_in {A B} (f : A -> B) (l : list A) (n : nat) (d : A) (d' : B) :
  (n < length l)%nat -> nth n (map f l) d' = f (nth n l d).
Proof.
  intros Hn. rewrite (nth_indep _ d' (f d)) by (rewrite length_map; exact Hn).
  apply map_nth.
Qed.

Lemma cell_in_ravel (M N : nat) (t : grid Q) (i j : nat) :
  rect M N t -> (i < M)%nat -> (j < N)%nat -> In (cell t i j) (ravel t).
Proof.
  intros [Hlen Hrows] Hi Hj. unfold cell, ravel.
  apply in_concat. exists (nth i t []). split.
  - apply nth_In. lia.
  - apply nth_In. rewrite Forall_forall in Hrows.
    rewrite (Hrows (nth i t [])) by (apply nth_In; lia). exact Hj.
Qed.

(** What a returning call of [get_radiance] computes, pixel by pixel. *)
Lemma get_radiance_cells (I : image) (M N : nat) (A : pixel) (t : grid Q)
      (J : image) :
  rect M N I -> rect M N t -> (1 <= M)%nat ->
  get_radiance I A t = Ok J ->
  rect M N J /\
  forall i j, (i < M)%nat -> (j < N)%nat ->
    ~ cell t i j == 0 /\
    pixel_at J i j = recover A (pixel_at I i j) (cell t i j).
Proof.
  intros HI Ht HM Hrun. unfold get_radiance in Hrun.
  rewrite (tile_rect M N I t HI Ht HM) in Hrun. simpl bind in Hrun.
  destruct (existsb _ _) eqn:Ez; [discriminate |]. injection Hrun as <-.
  destruct HI as [HIlen HIrows]. destruct Ht as [Htlen Htrows].
  rewrite Forall_forall in HIrows, Htrows.
  apply conj.
  - apply conj.
    + rewrite length_map, length_combine. lia.
    + apply Forall_forall. intros row Hrow.
      apply in_map_iff in Hrow as ([r1 r2] & <- & Hin). simpl.
      rewrite length_map, length_combine.
      rewrite (HIrows r1 (in_combine_l _ _ _ _ Hin)).
      rewrite (Htrows r2 (in_combine_r _ _ _ _ Hin)). lia.
  - intros i j Hi Hj. split.
    + intros E.
      assert (Hex : existsb (fun x => Qeq_bool x 0) (ravel t) = true).
      { apply existsb_exists. exists (cell t i j). split.
        - apply (cell_in_ravel M N);
            [split; [assumption | apply Forall_forall; assumption]
            | assumption | assumption].
        - apply Qeq_bool_iff. exact E. }
      congruence.
    + unfold pixel_at, cell.
      rewrite (nth_map_in _ _ i ([], []))
        by (rewrite length_combine; lia).
      rewrite combine_nth by lia. simpl fst. simpl snd.
      assert (H1 : length (nth i I []) = N) by (apply HIrows, nth_In; lia).
      assert (H2 : length (nth i t []) = N) by (apply Htrows, nth_In; lia).
      unfold image, grid, pixel in *.
      rewrite (nth_map_in _ _ j ((0, 0, 0), 0))
        by (rewrite length_combine, H1, H2; lia).
      rewrite combine_nth by (rewrite H1, H2; reflexivity). reflexivity.
Qed.

(** ** The floor on the transmission and the divisors of [get_radiance] *)

Lemma mapM_length {A B} (f : A -> outcome B) (l : list A) (ys : list B) :
  mapM f l = Ok ys -> length ys = length l.
Proof.
  intros H. apply mapM_Ok_inv in H. symmetry. eapply Forall2_length, H.
Qed.

Lemma get_dark_channel_shape (I : image) (w : Z) (dark : grid Q) :
  get_dark_channel I w = Ok dark ->
  rect (fst (shape I)) (snd (shape I)) dark.
Proof.
  unfold get_dark_channel. destruct (shape I) as [M N]. simpl. intros H.
  apply bind_Ok in H as (padded & _ & H). split.
  - rewrite (mapM_length _ _ _ H). apply length_seq.
  - apply mapM_Ok_inv in H. apply Forall_forall. intros row Hrow.
    destruct (Forall2_In_r _ _ _ _ H Hrow) as (i & _ & Hi).
    rewrite (mapM_length _ _ _ Hi). apply length_seq.
Qed.

Lemma cell_ge (M N : nat) (t : grid Q) (lo : Q) (i j : nat) :
  rect M N t -> (i < M)%nat -> (j < N)%nat ->
  Forall (Forall (fun x => lo <= x)) t -> lo <= cell t i j.
Proof.
  intros Ht Hi Hj Hge.
  pose proof (cell_in_ravel M N t i j Ht Hi Hj) as Hin.
  unfold ravel in Hin. apply in_concat in Hin as (row & Hrow & Hx).
  rewrite Forall_forall in Hge. pose proof (Hge row Hrow) as Hr.
  rewrite Forall_forall in Hr. apply Hr, Hx.
Qed.

(** C6 (amended).  Take a run of [dehaze_raw] that divides by no zero: no
    component of the clamped atmosphere light is 0 and, with
    [guided = true], the image is not constant (numpy does not stop at a
    division by zero, it goes on with [nan], and nothing is claimed about
    such a run).  The map [rawt] is at least [t_min] everywhere, and for
    [t_min > 0] the first call of [get_radiance] returns the radiance
    [(I - A) / rawt + A], every divisor being at least [t_min].  With
    [guided = false] the refined map, the divisor of the second call, is
    that same map.  With [guided = true] the refined map is what the guided
    filter returns for the normalised image and the floored map; it is not
    floored again, and the second call of [get_radiance] divides by it as
    it is. *)
Theorem transmission_floor gf (I : image) (M N : nat) (t_min atm_max : Q)
        (w : Z) (p omega : Q) (guided : bool) (r : Z) (eps : Q)
        (Idark : grid Q) (A : pixel) (rawt refinedt : grid Q) :
  rect M N I -> (1 <= M)%nat ->
  dehaze_raw gf I t_min atm_max w p omega guided r eps
  = Ok (Idark, A, rawt, refinedt) ->
  ~ chR A == 0 -> ~ chG A == 0 -> ~ chB A == 0 ->
  (guided = true -> varied I) ->
  rect M N rawt /\
  Forall (Forall (fun t => t_min <= t)) rawt /\
  (0 < t_min ->
   exists J,
     get_radiance I A rawt = Ok J /\
     forall i j, (i < M)%nat -> (j < N)%nat ->
       t_min <= cell rawt i j /\
       pixel_at J i j = recover A (pixel_at I i j) (cell rawt i j)) /\
  (guided = false -> refinedt = rawt) /\
  (guided = true ->
   (exists normI, normalize I = Ok normI /\
                  gf normI rawt r eps = Ok refinedt) /\
   forall J, rect M N refinedt -> get_radiance I A refinedt = Ok J ->
     forall i j, (i < M)%nat -> (j < N)%nat ->
       pixel_at J i j = recover A (pixel_at I i j) (cell refinedt i j)).
Proof.
  intros HI HM Hrun _ _ _ _.
  apply dehaze_raw_Ok in Hrun as (A0 & raw0 & _ & _ & _ & Ht & -> & Href).
  assert (Hrect : rect M N (np_maximum raw0 t_min)).
  { apply get_transmission_Ok in Ht as (dark' & Hd' & ->).
    apply get_dark_channel_shape in Hd'.
    rewrite (shape_rect M N _ (rect_grid_map _ M N I HI) HM) in Hd'.
    apply rect_grid_map, rect_grid_map, Hd'. }
  split; [exact Hrect |].
  split; [apply np_maximum_ge |].
  split.
  { intros Hpos.
    destruct (get_radiance_total I M N A (np_maximum raw0 t_min) t_min
                HI Hrect HM Hpos (np_maximum_ge t_min raw0)) as (J & HJ).
    exists J. split; [exact HJ |].
    intros i j Hi Hj. split.
    - apply (cell_ge M N); [exact Hrect | exact Hi | exact Hj |].
      apply np_maximum_ge.
    - apply (get_radiance_cells I M N A _ J HI Hrect HM HJ); assumption. }
  split; intros ->.
  - exact Href.
  - split; [exact Href |].
    intros J Hr HJ i j Hi Hj.
    apply (get_radiance_cells I M N A _ J HI Hr HM HJ); assumption.
Qed.

Lemma transmission_floor_witness :
  exists Idark A rawt refinedt,
    dehaze_raw regression_filter (asarray gradient_picture)
               0.2 220 1 0.5 0.95 true 40 0.001
    = Ok (Idark, A, rawt, refinedt) /\
    rect 1 3 rawt /\
    Forall (Forall (fun t => 0.2 <= t)) rawt /\
    (0 < 0.2 ->
     exists J,
       get_radiance (asarray gradient_picture) A rawt = Ok J /\
       forall i j, (i < 1)%nat -> (j < 3)%nat ->
         0.2 <= cell rawt i j /\
         pixel_at J i j
         = recover A (pixel_at (asarray gradient_picture) i j)
                   (cell rawt i j)) /\
    (true = false -> refinedt = rawt) /\
    (true = true ->
     (exists normI,
         normalize (asarray gradient_picture) = Ok normI /\
         regression_filter normI rawt 40 0.001 = Ok refinedt) /\
     forall J, rect 1 3 refinedt ->
       get_radiance (asarray gradient_picture) A refinedt = Ok J ->
       forall i j, (i < 1)%nat -> (j < 3)%nat ->
         pixel_at J i j
         = recover A (pixel_at (asarray gradient_picture) i j)
                   (cell refinedt i j)).
Proof.
  assert (Hrun : exists Idark rawt refinedt,
             dehaze_raw regression_filter (asarray gradient_picture)
                        0.2 220 1 0.5 0.95 true 40 0.001
             = Ok (Idark, (200, 200, 200), rawt, refinedt))
    by (vm_compute; do 3 eexists; reflexivity).
  destruct Hrun as (Idark & rawt & refinedt & Hrun).
  exists Idark, (200, 200, 200), rawt, refinedt.
  split; [exact Hrun |].
  apply (transmission_floor regression_filter (asarray gradient_picture) 1 3
                            0.2 220 1 0.5 0.95 true 40 0.001 Idark
                            (200, 200, 200) rawt refinedt).
  - split; [reflexivity | repeat constructor].
  - lia.
  - exact Hrun.
  - vm_compute. discriminate.
  - vm_compute. discriminate.
  - vm_compute. discriminate.
  - intros _. exists 200, 190. vm_compute.
    split; [tauto | split; [tauto | discriminate]].
Defined.

(** C6 as stated fails.  With [guided = true], on a 1 x 3 picture the
    floored map is (0.2, 0.2, 0.525), the filter returns about 0.1845 in the
    first cell, below [t_min = 0.2], and [dehaze] divides by it.  On a
    black picture the atmosphere light is (0, 0, 0) and [I / A] is 0/0:
    whatever the filter and [guided] are, the transmission map that numpy
    goes on with is made of [nan], which is not at least [t_min]. *)
Lemma refined_map_below_floor :
  (exists Idark A rawt refinedt pics,
      dehaze_raw regression_filter (asarray gradient_picture)
                 0.2 220 1 0.5 0.95 true 40 0.001
      = Ok (Idark, A, rawt, refinedt) /\
      rawt = [[0.2; 0.2; 10500 # 20000]] /\
      Forall2 (Forall2 Qeq) refinedt
              [[13501 # 73160; 15971 # 73160; 38201 # 73160]] /\
      Exists (Exists (fun t => t < 0.2)) refinedt /\
      dehaze regression_filter gradient_picture 0.2 220 1 0.5 0.95 true 40
             0.001
      = Ok pics) /\
  (forall gf guided,
      get_atmosphere (asarray black_picture)
                     [[0; 0]; [0; 0]] 0.5 = Ok (0, 0, 0) /\
      div_light (asarray black_picture) (np_minimum (0, 0, 0) 220)
      = NonFinite /\
      dehaze_raw gf (asarray black_picture) 0.2 220 1 0.5 0.95 guided 40 0.001
      = NonFinite /\
      dehaze gf black_picture 0.2 220 1 0.5 0.95 guided 40 0.001
      = NonFinite).
Proof.
  split.
  - eexists; eexists; eexists; eexists; eexists.
    split; [vm_compute; reflexivity |].
    split; [reflexivity |].
    split; [repeat constructor |].
    split; [constructor; constructor; reflexivity |].
    vm_compute. reflexivity.
  - intros gf guided. repeat split; reflexivity.
Qed.

(** X15.  [get_radiance] inverts the haze model: hazing the recovered
    radiance again, with the same light and the same transmission, gives
    back the input image, pixel by pixel. *)
Theorem radiance_inverts_haze (I : image) (M N : nat) (A : pixel) (t : grid Q)
        (J : image) :
  rect M N I -> rect M N t -> (1 <= M)%nat ->
  get_radiance I A t = Ok J ->
  rect M N J /\
  forall i j, (i < M)%nat -> (j < N)%nat ->
    pixel_eq (haze A (pixel_at J i j) (cell t i j)) (pixel_at I i j).
Proof.
  intros HI Ht HM Hrun.
  destruct (get_radiance_cells I M N A t J HI Ht HM Hrun) as [HJ Hcells].
  split; [exact HJ |]. intros i j Hi Hj.
  destruct (Hcells i j Hi Hj) as [Hnz ->].
  unfold pixel_eq, haze, recover, pixel_map2, chR, chG, chB; simpl.
  repeat split; field; exact Hnz.
Qed.

Lemma radiance_inverts_haze_witness :
  exists J,
    get_radiance sample_image (9, 8, 9) (full 2 3 0.5) = Ok J /\
    rect 2 3 J /\
    forall i j, (i < 2)%nat -> (j < 3)%nat ->
      pixel_eq (haze (9, 8, 9) (pixel_at J i j) (cell (full 2 3 0.5) i j))
               (pixel_at sample_image i j).
Proof.
  assert (Hrun : exists J,
             get_radiance sample_image (9, 8, 9) (full 2 3 0.5) = Ok J)
    by (vm_compute; eexists; reflexivity).
  destruct Hrun as [J Hrun]. exists J. split; [exact Hrun |].
  apply (radiance_inverts_haze sample_image 2 3 (9, 8, 9) (full 2 3 0.5) J).
  - split; [reflexivity | repeat constructor].
  - split; [reflexivity | repeat constructor].
  - lia.
  - exact Hrun.
Defined.

Lemma full_ge {M N : nat} (v lo : Q) :
  lo <= v -> Forall (Forall (fun x => lo <= x)) (full M N v).
Proof.
  intros H. unfold full. apply Forall_forall. intros row Hrow.
  apply repeat_spec in Hrow. subst. apply Forall_forall. intros x Hx.
  apply repeat_spec in Hx. subst. exact H.
Qed.

Lemma cell_full (M N : nat) (v : Q) (i j : nat) :
  (i < M)%nat -> (j < N)%nat -> cell (full M N v) i j = v.
Proof.
  intros Hi Hj. unfold cell, full.
  rewrite (nth_repeat_lt (repeat v N)) by exact Hi.
  apply nth_repeat_lt. exact Hj.
Qed.

(** X16.  With a transmission of 1 everywhere nothing is removed: the
    recovered radiance is the input image, for any atmosphere light. *)
Theorem radiance_full_transmission (I : image) (M N : nat) (A : pixel) :
  rect M N I -> (1 <= M)%nat ->
  exists J,
    get_radiance I A (full M N 1) = Ok J /\
    rect M N J /\
    forall i j, (i < M)%nat -> (j < N)%nat ->
      pixel_eq (pixel_at J i j) (pixel_at I i j).
Proof.
  intros HI HM.
  destruct (get_radiance_total I M N A (full M N 1) 1 HI (rect_full M N 1) HM)
    as (J & HJ); [reflexivity | apply full_ge, Qle_refl |].
  exists J. split; [exact HJ |].
  destruct (get_radiance_cells I M N A (full M N 1) J HI (rect_full M N 1) HM HJ)
    as [Hrect Hcells].
  split; [exact Hrect |]. intros i j Hi Hj.
  destruct (Hcells i j Hi Hj) as [_ ->]. rewrite cell_full by assumption.
  unfold pixel_eq, recover, pixel_map2, chR, chG, chB; simpl.
  repeat split; field.
Qed.

Lemma radiance_full_transmission_witness :
  exists J,
    get_radiance sample_image (9, 8, 9) (full 2 3 1) = Ok J /\
    rect 2 3 J /\
    forall i j, (i < 2)%nat -> (j < 3)%nat ->
      pixel_eq (pixel_at J i j) (pixel_at sample_image i j).
Proof.
  apply (radiance_full_transmission sample_image 2 3 (9, 8, 9)).
  - split; [reflexivity | repeat constructor].
  - lia.
Defined.

(** * Properties of the conversion to pictures *)

Lemma clip_bounds (x : Q) :
  0 <= Qmax (Qmin x (inject_Z (max_color_val - 1))) 0
  /\ Qmax (Qmin x (inject_Z (max_color_val - 1))) 0
     <= inject_Z (max_color_val - 1).
Proof.
  split; [apply Q.le_max_r |].
  apply Q.max_lub; [apply Q.le_min_r | vm_compute; discriminate].
Qed.

Lemma cut_range (x : Q) : (0 <= cut x <= max_color_val - 1)%Z.
Proof.
  unfold cut. destruct (clip_bounds x) as [H0 H1].
  rewrite (py_int_floor_nonneg _ H0).
  apply Qfloor_resp_le in H0, H1.
  rewrite Qfloor_Z in H1. change (Qfloor 0) with 0%Z in H0. lia.
Qed.

Lemma cut_inject_Z (z : Z) :
  (0 <= z <= max_color_val - 1)%Z -> cut (inject_Z z) = z.
Proof.
  intros [H0 H1]. unfold cut.
  rewrite Qmin_left by (rewrite <- Zle_Qle; exact H1).
  rewrite Qmax_left by (change 0 with (inject_Z 0); rewrite <- Zle_Qle; exact H0).
  unfold py_int, inject_Z. simpl. apply Z.quot_1_r.
Qed.

(** X17.  Quantization keeps the order: a larger value never gives a
    smaller 8-bit value. *)
Theorem cut_monotone (x y : Q) : x <= y -> (cut x <= cut y)%Z.
Proof.
  intros Hxy. unfold cut.
  rewrite !py_int_floor_nonneg by apply clip_bounds.
  apply Qfloor_resp_le, Q.max_le_compat_r, Q.min_le_compat_r, Hxy.
Qed.

Lemma cut_monotone_witness : (cut 12.40 <= cut (710 # 2))%Z.
Proof. apply (cut_monotone 12.40 (710 # 2)). vm_compute. discriminate. Defined.

Lemma to_img_in_range (raw : grid Q) : picture_in_range (to_img raw).
Proof.
  unfold to_img, picture_in_range.
  apply Forall_grid_map. intros x. apply cut_range.
Qed.

Lemma to_img_rgb_in_range (raw : image) : picture_in_range (to_img_rgb raw).
Proof.
  unfold to_img_rgb, picture_in_range.
  apply Forall_grid_map. intros x. simpl. repeat split; apply cut_range.
Qed.

(** X18.  Whatever the guided filter and the parameters, every value of
    the five pictures that [dehaze] returns lies between 0 and 255. *)
Theorem dehaze_pictures_in_range gf (img : grid (Z * Z * Z)) (t_min atm_max : Q)
        (w : Z) (p omega : Q) (guided : bool) (r : Z) (eps : Q)
        (pics : list picture) :
  dehaze gf img t_min atm_max w p omega guided r eps = Ok pics ->
  length pics = 5%nat /\ Forall picture_in_range pics.
Proof.
  unfold dehaze. intros H.
  apply bind_Ok in H as ([[[Idark A] rawt] refinedt] & _ & H).
  apply bind_Ok in H as (rad1 & _ & H).
  apply bind_Ok in H as (rad2 & _ & H).
  injection H as <-. split; [reflexivity |].
  repeat constructor;
    first [apply to_img_in_range | apply to_img_rgb_in_range].
Qed.

Lemma dehaze_pictures_in_range_witness :
  exists pics,
    dehaze regression_filter gradient_picture 0.2 220 1 0.5 0.95 true 40 0.001
    = Ok pics /\
    length pics = 5%nat /\ Forall picture_in_range pics.
Proof.
  assert (Hrun : exists pics,
             dehaze regression_filter gradient_picture
                    0.2 220 1 0.5 0.95 true 40 0.001 = Ok pics)
    by (vm_compute; eexists; reflexivity).
  destruct Hrun as [pics Hrun]. exists pics. split; [exact Hrun |].
  apply (dehaze_pictures_in_range regression_filter gradient_picture
                                  0.2 220 1 0.5 0.95 true 40 0.001 pics Hrun).
Defined.

(** X19.  Reading an 8-bit picture as a float array and converting the
    array back gives the picture: [to_img(np.asarray(img))] is [img]. *)
Theorem to_img_asarray_round_trip (img : grid (Z * Z * Z)) :
  eight_bit img -> to_img_rgb (asarray img) = Color img.
Proof.
  intros Himg. unfold to_img_rgb, asarray. f_equal.
  unfold grid_map. rewrite map_map.
  rewrite <- (map_id img) at 2. apply map_ext_in. intros row Hrow.
  unfold eight_bit in Himg. rewrite Forall_forall in Himg.
  pose proof (Himg row Hrow) as Hr. rewrite Forall_forall in Hr.
  rewrite map_map. rewrite <- (map_id row) at 2.
  apply map_ext_in. intros [[a b] c] Hx.
  destruct (Hr _ Hx) as (Ha & Hb & Hc). simpl in *.
  unfold chR, chG, chB. simpl.
  rewrite !cut_inject_Z by (unfold max_color_val; lia). reflexivity.
Qed.

Lemma sample_picture_eight_bit : eight_bit sample_picture.
Proof.
  unfold eight_bit, sample_picture. repeat constructor; simpl; lia.
Qed.

Lemma to_img_asarray_round_trip_witness :
  to_img_rgb (asarray sample_picture) = Color sample_picture.
Proof.
  apply (to_img_asarray_round_trip sample_picture).
  exact sample_picture_eight_bit.
Defined.

Lemma asarray_values (img : grid (Z * Z * Z)) (row : list pixel) (x : pixel)
      (v : Q) :
  eight_bit img -> In row (asarray img) -> In x row -> In v (channels x) ->
  exists z, v = inject_Z z /\ (0 <= z <= 255)%Z.
Proof.
  intros Himg Hrow Hx Hv. unfold asarray, grid_map in Hrow.
  apply in_map_iff in Hrow as (row0 & <- & Hrow0).
  apply in_map_iff in Hx as ([[a b] c] & <- & Hx0).
  unfold eight_bit in Himg. rewrite Forall_forall in Himg.
  pose proof (Himg row0 Hrow0) as Hr. rewrite Forall_forall in Hr.
  destruct (Hr _ Hx0) as (Ha & Hb & Hc). simpl in *.
  destruct Hv as [<- | [<- | [<- | []]]]; eexists; (split; [reflexivity |]);
    assumption.
Qed.

(** X20.  For an 8-bit picture the first picture that [dehaze] returns
    holds the dark channel exactly: its values, read as numbers, are the
    dark channel of the input, nothing being lost in the conversion. *)
Theorem dehaze_dark_picture_exact gf (img : grid (Z * Z * Z)) (t_min atm_max : Q)
        (w : Z) (p omega : Q) (guided : bool) (r : Z) (eps : Q)
        (pics : list picture) :
  dehaze gf img t_min atm_max w p omega guided r eps = Ok pics ->
  eight_bit img ->
  exists g rest,
    pics = Gray g :: rest /\
    get_dark_channel (asarray img) w = Ok (grid_map inject_Z g).
Proof.
  unfold dehaze. intros H Himg.
  apply bind_Ok in H as ([[[Idark A] rawt] refinedt] & Hraw & H).
  apply bind_Ok in H as (rad1 & _ & H).
  apply bind_Ok in H as (rad2 & _ & H).
  injection H as <-.
  apply dehaze_raw_Ok in Hraw as (A0 & raw0 & Hd & _).
  do 2 eexists. split; [reflexivity |].
  rewrite Hd. f_equal. symmetry.
  unfold grid_map at 1. fold (grid_map cut Idark).
  change (map (map inject_Z) (grid_map cut Idark))
    with (grid_map inject_Z (grid_map cut Idark)).
  unfold grid_map. rewrite map_map.
  rewrite <- (map_id Idark) at 2. apply map_ext_in. intros row Hrow.
  rewrite map_map. rewrite <- (map_id row) at 2.
  apply map_ext_in. intros d Hin.
  destruct (get_dark_channel_values _ _ _ Hd row d Hrow Hin)
    as (irow & x & Hirow & Hx & Hv).
  destruct (asarray_values img irow x d Himg Hirow Hx Hv) as (z & -> & Hz).
  rewrite cut_inject_Z by (unfold max_color_val; lia). reflexivity.
Qed.

Lemma dehaze_dark_picture_exact_witness :
  exists g rest,
    dehaze regression_filter sample_picture 0.2 220 3 0.5 0.95 false 40 0.001
    = Ok (Gray g :: rest) /\
    get_dark_channel (asarray sample_picture) 3 = Ok (grid_map inject_Z g).
Proof.
  assert (Hrun : exists pics,
             dehaze regression_filter sample_picture
                    0.2 220 3 0.5 0.95 false 40 0.001 = Ok pics)
    by (vm_compute; eexists; reflexivity).
  destruct Hrun as [pics Hrun].
  destruct (dehaze_dark_picture_exact regression_filter sample_picture
              0.2 220 3 0.5 0.95 false 40 0.001 pics Hrun
              sample_picture_eight_bit)
    as (g & rest & -> & Hd).
  exists g, rest. split; [exact Hrun | exact Hd].
Defined.

(** * Properties of the pipeline *)

(** X21.  The maps that [dehaze_raw] returns have the shape of the image:
    the dark channel and the floored transmission always, the refined
    transmission when the guided filter is not used. *)
Theorem dehaze_raw_shapes gf (I : image) (M N : nat) (t_min atm_max : Q)
        (w : Z) (p omega : Q) (guided : bool) (r : Z) (eps : Q)
        (Idark : grid Q) (A : pixel) (rawt refinedt : grid Q) :
  rect M N I -> (1 <= M)%nat ->
  dehaze_raw gf I t_min atm_max w p omega guided r eps
  = Ok (Idark, A, rawt, refinedt) ->
  rect M N Idark /\ rect M N rawt /\ (guided = false -> rect M N refinedt).
Proof.
  intros HI HM Hrun.
  apply dehaze_raw_Ok in Hrun as (A0 & raw0 & Hd & _ & _ & Ht & -> & Href).
  assert (Hrawt : rect M N (np_maximum raw0 t_min)).
  { apply get_transmission_Ok in Ht as (dark' & Hd' & ->).
    apply get_dark_channel_shape in Hd'.
    rewrite (shape_rect M N _ (rect_grid_map _ M N I HI) HM) in Hd'.
    apply rect_grid_map, rect_grid_map, Hd'. }
  split; [| split].
  - apply get_dark_channel_shape in Hd.
    rewrite (shape_rect M N I HI HM) in Hd. exact Hd.
  - exact Hrawt.
  - intros ->. rewrite Href. exact Hrawt.
Qed.

Lemma dehaze_raw_shapes_witness :
  rect 2 3 (full 2 3 2) /\ rect 2 3 (full 2 3 (710 # 900))
  /\ (false = false -> rect 2 3 (full 2 3 (710 # 900))).
Proof.
  apply (dehaze_raw_shapes (fun _ t _ _ => Ok t) sample_image 2 3
           0.2 220 3 0.5 0.95 false 40 0.001
           (full 2 3 2) (9, 8, 9) (full 2 3 (710 # 900)) (full 2 3 (710 # 900))).
  - split; [reflexivity | repeat constructor].
  - lia.
  - vm_compute. reflexivity.
Defined.

Lemma np_min_Ok (l : list Q) (m : Q) : np_min l = Ok m -> is_min m l.
Proof.
  destruct l as [| x t]; simpl; intros H; [discriminate |].
  injection H as <-. apply fold_left_Qmin_spec.
Qed.

Lemma np_max_Ok (l : list Q) (m : Q) : np_max l = Ok m -> is_max m l.
Proof.
  destruct l as [| x t]; simpl; intros H; [discriminate |].
  injection H as <-. apply fold_left_Qmax_spec.
Qed.

(** X22.  The guidance image that [dehaze_raw] hands to the guided filter
    is the input rescaled to the unit interval: every value of
    [(I - I.min()) / (I.max() - I.min())] lies between 0 and 1, the least
    value of the image is sent to 0 and the greatest to 1, and the shape
    is kept. *)
Theorem normalize_unit_interval (I J : image) :
  normalize I = Ok J ->
  image_within 0 1 J /\
  (exists x v, In x (ravel J) /\ In v (channels x) /\ v == 0) /\
  (exists x v, In x (ravel J) /\ In v (channels x) /\ v == 1) /\
  (forall M N, rect M N I -> rect M N J).
Proof.
  unfold normalize. intros H.
  apply bind_Ok in H as (lo & Hlo & H).
  apply bind_Ok in H as (hi & Hhi & H).
  destruct (Qeq_bool (hi - lo) 0) eqn:E; [discriminate |]. injection H as <-.
  apply np_min_Ok in Hlo. apply np_max_Ok in Hhi.
  destruct Hlo as [Hlo_in Hlo_le]. destruct Hhi as [Hhi_in Hhi_le].
  assert (Hne : ~ hi - lo == 0).
  { intros Heq. apply Qeq_bool_iff in Heq. congruence. }
  assert (Hpos : 0 < hi - lo).
  { pose proof (Hlo_le hi Hhi_in) as Hle.
    destruct (Qlt_le_dec 0 (hi - lo)) as [Hlt | Hge]; [exact Hlt |].
    exfalso. apply Hne. lra. }
  assert (Hch : forall x v, In v (channels (pixel_map
                  (fun y => (y - lo) / (hi - lo)) x)) ->
                exists u, In u (channels x) /\ v = (u - lo) / (hi - lo)).
  { intros x v [<- | [<- | [<- | []]]]; eexists; (split; [| reflexivity]);
      simpl; auto. }
  split; [| split; [| split]].
  - apply Forall_map, Forall_forall. intros row Hrow.
    apply Forall_map, Forall_forall. intros x Hx v Hv.
    apply Hch in Hv as (u & Hu & ->).
    assert (Hflat : In u (flat_map channels (ravel I))).
    { apply in_flat_map. exists x. split; [| exact Hu].
      apply in_concat. exists row. split; assumption. }
    pose proof (Hlo_le u Hflat). pose proof (Hhi_le u Hflat).
    split.
    + apply Qle_shift_div_l; [exact Hpos | lra].
    + apply Qle_shift_div_r; [exact Hpos | lra].
  - apply in_flat_map in Hlo_in as (x & Hx & Hv).
    exists (pixel_map (fun y => (y - lo) / (hi - lo)) x), ((lo - lo) / (hi - lo)).
    split; [| split].
    + unfold ravel in Hx. apply in_concat in Hx as (row & Hrow & Hx).
      unfold ravel, grid_map. apply in_concat.
      exists (map (pixel_map (fun y => (y - lo) / (hi - lo))) row).
      split; [apply in_map_iff; exists row; split; [reflexivity | exact Hrow] |].
      apply in_map, Hx.
    + destruct Hv as [<- | [<- | [<- | []]]]; simpl; auto.
    + field. exact Hne.
  - apply in_flat_map in Hhi_in as (x & Hx & Hv).
    exists (pixel_map (fun y => (y - lo) / (hi - lo)) x), ((hi - lo) / (hi - lo)).
    split; [| split].
    + unfold ravel in Hx. apply in_concat in Hx as (row & Hrow & Hx).
      unfold ravel, grid_map. apply in_concat.
      exists (map (pixel_map (fun y => (y - lo) / (hi - lo))) row).
      split; [apply in_map_iff; exists row; split; [reflexivity | exact Hrow] |].
      apply in_map, Hx.
    + destruct Hv as [<- | [<- | [<- | []]]]; simpl; auto.
    + field. exact Hne.
  - intros M N HI. apply rect_grid_map, HI.
Qed.

Lemma normalize_unit_interval_witness :
  exists J,
    normalize sample_image = Ok J /\
    image_within 0 1 J /\
    (exists x v, In x (ravel J) /\ In v (channels x) /\ v == 0) /\
    (exists x v, In x (ravel J) /\ In v (channels x) /\ v == 1) /\
    (forall M N, rect M N sample_image -> rect M N J).
Proof.
  assert (Hrun : exists J, normalize sample_image = Ok J)
    by (vm_compute; eexists; reflexivity).
  destruct Hrun as [J Hrun]. exists J. split; [exact Hrun |].
  apply (normalize_unit_interval sample_image J Hrun).
Defined.

(** ** An image of a single colour is left as it is *)

Lemma np_minimum_below (c : pixel) (atm_max : Q) :
  chR c <= atm_max -> chG c <= atm_max -> chB c <= atm_max ->
  np_minimum c atm_max = c.
Proof.
  intros HR HG HB. destruct c as [[a b] d].
  unfold np_minimum, pixel_map, chR, chG, chB in *. simpl in *.
  rewrite !Qmin_left by assumption. reflexivity.
Qed.

Lemma pixel_at_full (M N : nat) (c : pixel) (i j : nat) :
  (i < M)%nat -> (j < N)%nat -> pixel_at (full M N c) i j = c.
Proof.
  intros Hi Hj. unfold pixel_at, full.
  rewrite (nth_repeat_lt (repeat c N)) by exact Hi.
  apply nth_repeat_lt. exact Hj.
Qed.

(** The run of the pipeline on an image of one colour, in rationals. *)
Lemma constant_image_run gf (M N : nat) (c : pixel) (t_min atm_max : Q) (w : Z)
      (p omega : Q) (r : Z) (eps : Q) :
  (1 <= M)%nat -> (1 <= N)%nat -> (1 <= w)%Z ->
  (1 <= Qfloor (inject_Z (Z.of_nat (M * N)) * p))%Z ->
  0 < chR c -> 0 < chG c -> 0 < chB c ->
  chR c <= atm_max -> chG c <= atm_max -> chB c <= atm_max ->
  0 < t_min ->
  exists rawt J,
    dehaze_raw gf (full M N c) t_min atm_max w p omega false r eps
    = Ok (full M N (pixel_min c), c, rawt, rawt) /\
    get_radiance (full M N c) c rawt = Ok J /\
    rect M N J /\
    forall i j, (i < M)%nat -> (j < N)%nat -> pixel_eq (pixel_at J i j) c.
Proof.
  intros HM HN Hw Hk HR HG HB HRm HGm HBm Htmin.
  pose proof (rect_full M N c) as HI.
  pose proof (get_dark_channel_full M N c w HM HN Hw) as Hd.
  pose proof (get_atmosphere_full M N c (full M N (pixel_min c)) p
                (rect_full M N (pixel_min c)) HM HN Hk) as HA.
  pose proof (np_minimum_below c atm_max HRm HGm HBm) as Hclamp.
  destruct (get_transmission_total (full M N c) M N c omega w HI HM HN Hw)
    as (d & _ & Hdr & Ht).
  { intros E. rewrite E in HR. lra. }
  { intros E. rewrite E in HG. lra. }
  { intros E. rewrite E in HB. lra. }
  assert (Ht' : get_transmission (full M N c) (np_minimum c atm_max) omega w
                = Ok (grid_map (fun x => 1 - omega * x) d))
    by (rewrite Hclamp; exact Ht).
  pose proof (dehaze_raw_unguided gf (full M N c) t_min atm_max w p omega r eps
                _ c _ Hd HA Ht') as Hrun.
  rewrite Hclamp in Hrun.
  set (rawt := np_maximum (grid_map (fun x => 1 - omega * x) d) t_min) in *.
  assert (Hrawt : rect M N rawt)
    by (apply rect_grid_map, rect_grid_map, Hdr).
  destruct (get_radiance_total (full M N c) M N c rawt t_min HI Hrawt HM Htmin)
    as (J & HJ); [apply np_maximum_ge |].
  exists rawt, J. split; [exact Hrun |]. split; [exact HJ |].
  destruct (get_radiance_cells (full M N c) M N c rawt J HI Hrawt HM HJ)
    as [HJr Hcells].
  split; [exact HJr |]. intros i j Hi Hj.
  destruct (Hcells i j Hi Hj) as [_ ->]. rewrite pixel_at_full by assumption.
  unfold pixel_eq, recover, pixel_map2, chR, chG, chB; simpl.
  repeat split; unfold Qdiv; ring.
Qed.

(** X23.  An image of a single colour whose channels are positive and at
    most [atm_max] is a fixed point of the pipeline without guided filter:
    for every size, window [w >= 1], fraction with [floor(M * N * p) >= 1],
    [omega] and [t_min > 0], the atmosphere light is the colour and the
    recovered radiance is the colour at every pixel. *)
Theorem constant_image_fixed_point gf (M N : nat) (c : pixel)
        (t_min atm_max : Q) (w : Z) (p omega : Q) (r : Z) (eps : Q) :
  (1 <= M)%nat -> (1 <= N)%nat -> (1 <= w)%Z ->
  (1 <= Qfloor (inject_Z (Z.of_nat (M * N)) * p))%Z ->
  0 < chR c -> 0 < chG c -> 0 < chB c ->
  chR c <= atm_max -> chG c <= atm_max -> chB c <= atm_max ->
  0 < t_min ->
  exists rawt J,
    dehaze_raw gf (full M N c) t_min atm_max w p omega false r eps
    = Ok (full M N (pixel_min c), c, rawt, rawt) /\
    get_radiance (full M N c) c rawt = Ok J /\
    rect M N J /\
    forall i j, (i < M)%nat -> (j < N)%nat -> pixel_eq (pixel_at J i j) c.
Proof. apply constant_image_run. Qed.

Lemma constant_image_fixed_point_witness :
  exists rawt J,
    dehaze_raw regression_filter (full 3 2 (40, 20, 30)) 0.1 220 5 0.4 0.9 false
               40 0.001
    = Ok (full 3 2 (pixel_min (40, 20, 30)), (40, 20, 30), rawt, rawt) /\
    get_radiance (full 3 2 (40, 20, 30)) (40, 20, 30) rawt = Ok J /\
    rect 3 2 J /\
    forall i j, (i < 3)%nat -> (j < 2)%nat ->
      pixel_eq (pixel_at J i j) (40, 20, 30).
Proof.
  apply (constant_image_fixed_point regression_filter 3 2 (40, 20, 30)
                                    0.1 220 5 0.4 0.9 40 0.001);
    try lia; try reflexivity; vm_compute; discriminate.
Defined.

Lemma cut_Qeq (x : Q) (z : Z) :
  x == inject_Z z -> (0 <= z <= max_color_val - 1)%Z -> cut x = z.
Proof.
  intros Hx Hz. rewrite <- (cut_inject_Z z Hz). unfold cut.
  rewrite !py_int_floor_nonneg by apply clip_bounds.
  apply Qfloor_comp.
  apply Q.max_compat; [| reflexivity].
  apply Q.min_compat; [exact Hx | reflexivity].
Qed.

Lemma grid_map_full {A B} (f : A -> B) (M N : nat) (g : grid A) (b : B) :
  rect M N g -> Forall (Forall (fun x => f x = b)) g ->
  grid_map f g = full M N b.
Proof.
  intros [Hlen Hrows] Hall. unfold grid_map, full. rewrite <- Hlen.
  rewrite <- map_const. apply map_ext_in. intros row Hrow.
  rewrite Forall_forall in Hrows, Hall.
  rewrite <- (Hrows row Hrow). rewrite <- map_const.
  apply map_ext_in. intros x Hx.
  pose proof (Hall row Hrow) as Hr. rewrite Forall_forall in Hr.
  apply Hr, Hx.
Qed.

Lemma Forall_cells (M N : nat) (J : image) (P : pixel -> Prop) :
  rect M N J ->
  (forall i j, (i < M)%nat -> (j < N)%nat -> P (pixel_at J i j)) ->
  Forall (Forall P) J.
Proof.
  intros [Hlen Hrows] H. apply Forall_forall. intros row Hrow.
  apply Forall_forall. intros x Hx.
  apply (In_nth _ _ []) in Hrow as (i & Hi & <-).
  apply (In_nth _ _ (0, 0, 0)) in Hx as (j & Hj & <-).
  apply H; [lia |].
  rewrite Forall_forall in Hrows.
  rewrite <- (Hrows (nth i J [])) by (apply nth_In; exact Hi). exact Hj.
Qed.

Lemma asarray_full (M N : nat) (z : Z * Z * Z) :
  asarray (full M N z)
  = full M N (inject_Z (fst (fst z)), inject_Z (snd (fst z)), inject_Z (snd z)).
Proof.
  unfold asarray, grid_map, full. rewrite !map_repeat. reflexivity.
Qed.

(** X24.  [dehaze] without the guided filter returns a picture of a single
    colour unchanged, as both radiance pictures, whenever the three values
    of the colour are at least 1 and at most [atm_max] and 255. *)
Theorem dehaze_constant_picture gf (M N : nat) (z : Z * Z * Z)
        (t_min atm_max : Q) (w : Z) (p omega : Q) (r : Z) (eps : Q) :
  (1 <= M)%nat -> (1 <= N)%nat -> (1 <= w)%Z ->
  (1 <= Qfloor (inject_Z (Z.of_nat (M * N)) * p))%Z ->
  (1 <= fst (fst z) <= 255)%Z -> (1 <= snd (fst z) <= 255)%Z ->
  (1 <= snd z <= 255)%Z ->
  inject_Z (fst (fst z)) <= atm_max -> inject_Z (snd (fst z)) <= atm_max ->
  inject_Z (snd z) <= atm_max ->
  0 < t_min ->
  exists dark trans,
    dehaze gf (full M N z) t_min atm_max w p omega false r eps
    = Ok [dark; trans; trans; Color (full M N z); Color (full M N z)].
Proof.
  intros HM HN Hw Hk Hz1 Hz2 Hz3 Hm1 Hm2 Hm3 Htmin.
  destruct z as [[a b] c]. simpl in *.
  set (col := (inject_Z a, inject_Z b, inject_Z c) : pixel).
  destruct (constant_image_run gf M N col t_min atm_max w p omega r eps)
    as (rawt & J & Hraw & HJ & HJr & Hcells);
    try assumption;
    try (unfold col, chR, chG, chB, Qlt; simpl; lia).
  assert (Har : asarray (full M N (a, b, c)) = full M N col)
    by (rewrite asarray_full; reflexivity).
  unfold dehaze. cbv zeta. rewrite Har.
  rewrite Hraw. simpl bind. rewrite HJ. simpl bind.
  do 2 eexists. f_equal. f_equal. f_equal. f_equal.
  assert (HC : to_img_rgb J = Color (full M N (a, b, c))).
  { unfold to_img_rgb. f_equal. apply grid_map_full; [exact HJr |].
    apply (Forall_cells M N); [exact HJr |]. intros i j Hi Hj.
    destruct (Hcells i j Hi Hj) as (ER & EG & EB). cbv beta.
    rewrite (cut_Qeq _ a ER) by (unfold max_color_val; lia).
    rewrite (cut_Qeq _ b EG) by (unfold max_color_val; lia).
    rewrite (cut_Qeq _ c EB) by (unfold max_color_val; lia).
    reflexivity. }
  rewrite HC. reflexivity.
Qed.

Lemma dehaze_constant_picture_witness :
  exists dark trans,
    dehaze regression_filter (full 3 2 (40, 20, 30)%Z) 0.1 220 5 0.4 0.9 false
           40 0.001
    = Ok [dark; trans; trans; Color (full 3 2 (40, 20, 30)%Z);
          Color (full 3 2 (40, 20, 30)%Z)].
Proof.
  apply (dehaze_constant_picture regression_filter 3 2 (40, 20, 30)%Z
                                 0.1 220 5 0.4 0.9 40 0.001);
    try (simpl; lia); try reflexivity; vm_compute; discriminate.
Defined.
